(** * roundup.admin: command lookup, argument parsing, filter paths,
      export and import

    A shallow embedding of the parts of [roundup/admin.py] that decide
    how a typed command name is resolved ([CommandDict.get],
    [AdminTool.run_command]), how [prop=value] arguments are read
    ([AdminTool.props_from_args]), how a dotted property path is walked
    ([AdminTool.do_filter]), how classes are written to and read from
    colon separated files ([AdminTool.do_export], [AdminTool.do_import]),
    how a choice is asked for ([AdminTool._get_choice]), which items
    and classes are reindexed ([AdminTool.do_reindex]) and how the
    options of the command line are read ([AdminTool.main]).

    Python dictionaries are [gmap]s, Python [str] is [string], Python
    [int] is [Z].  The hyperdb back end, the file system and the [csv]
    module are collaborators of [admin.py]: they appear as records of
    callbacks and as a log of the calls made to them. *)

From Stdlib Require Import ZArith String Ascii List Lia.
From stdpp Require Import base option list gmap strings sorting pretty.

Open Scope string_scope.

(** ** Exceptions *)

(** The text of a [UsageError], before translation and formatting. *)
Inductive UsageMessage : Type :=
  | NotEnoughArguments
  | NotPropnameValue (arg : string)
  | NoSuchClass (classname : string)
  | NoProperty (curclassname pn propname : string).

(** The exceptions that the modelled code raises or lets through. *)
Inductive Exn : Type :=
  | KeyError (key : string)
  | IndexError
  | TypeError
  | UsageError (message : UsageMessage)
  | AssertionError (message : string)
  | ValueError (text : string)
  | IOError (path : string)
  | CsvError.

(** Either an exception or a value. *)
Inductive result (A : Type) : Type :=
  | Raise (e : Exn)
  | Return (a : A).
Arguments Raise {A} e.
Arguments Return {A} a.

#[global] Instance result_ret : MRet result := λ A a, Return a.
#[global] Instance result_bind : MBind result := λ A B k r,
  match r with
  | Raise e => Raise e
  | Return a => k a
  end.

(** ** Python built-ins *)

Section sorting.
Context {A : Type} (ltb : A → A → bool).

(** Python sorts with [<] alone.  [x], which came first, stays in
    front of [y] unless [y < x], so elements that compare equal keep
    the order they had: the sort is stable, as Python's is. *)
Fixpoint insort (x : A) (l : list A) : list A :=
  match l with
  | [] => [x]
  | y :: l' => if ltb y x then y :: insort x l' else x :: l
  end.

(** [sorted(l)] and [l.sort()]. *)
Definition sorted (l : list A) : list A := foldr insort [] l.

(** [x] may stand in front of [y] in a sorted list. *)
Definition before (x y : A) : Prop := ltb y x = false.
End sorting.

(** [s.startswith(key)]. *)
Definition startswith (s key : string) : bool := String.prefix key s.

(** ** CommandDict *)

Module CommandDict.

(** The second argument of [get]: [_marker] when the caller leaves it
    out, any other object otherwise. *)
Inductive Default (D : Type) : Type :=
  | _marker
  | Supplied (d : D).
Arguments _marker {D}.
Arguments Supplied {D} d.

Section get.
Context {V D : Type}.

(** The keys of the dictionary; only their sorted list is used. *)
Definition keys (data : gmap string V) : list string :=
  (map_to_list data).*1.

(** The [for ki in keylist] loop; [self.data[ki]] raises [KeyError]
    on a missing key. *)
Fixpoint get_loop (data : gmap string V) (key : string)
    (keylist : list string) (matching_keys : list (string * V))
    : result (list (string * V)) :=
  match keylist with
  | [] => Return matching_keys
  | ki :: keylist' =>
      if startswith ki key then
        match data !! ki with
        | Some v => get_loop data key keylist' (matching_keys ++ [(ki, v)])
        | None => Raise (KeyError ki)
        end
      else get_loop data key keylist' matching_keys
  end.

Definition get (data : gmap string V) (key : string)
    (default : Default D) : result (list (string * V)) :=
  match data !! key with
  | Some v => Return [(key, v)]
  | None =>
      let keylist := sorted String.ltb (keys data) in
      matching_keys ← get_loop data key keylist [];
      match matching_keys, default with
      | [], _marker => Raise (KeyError key)
      | _, _ => Return matching_keys
      end
  end.
End get.

End CommandDict.

(** ** AdminTool.run_command: finding the command *)

(** What [run_command] does with the typed command before it opens the
    tracker. *)
Inductive Lookup (V : Type) : Type :=
  | UnknownCommand (command : string)
  | MultipleCommands (command : string) (names : list string)
  | Selected (command : string) (function : V).
Arguments UnknownCommand {V} command.
Arguments MultipleCommands {V} command names.
Arguments Selected {V} command function.

(** The lines from [functions = self.commands.get(command)] to
    [command, function = functions[0]].  The message for several matches
    prints [names] joined by a comma and a space. *)
Definition run_command_lookup {V : Type} (commands : gmap string V)
    (command : string) : result (Lookup V) :=
  match CommandDict.get (D := unit) commands command CommandDict._marker with
  | Raise (KeyError _) => Return (UnknownCommand command)
  | Raise e => Raise e
  | Return functions =>
      if decide (1 < length functions) then
        Return (MultipleCommands command (functions.*1))
      else
        match functions with
        | (command', function) :: _ => Return (Selected command' function)
        | [] => Raise IndexError
        end
  end.

(** ** More Python built-ins on [str] *)

(** [s.partition(sep)] when [sep] occurs: the text before the first
    [sep] and the text after it. *)
Fixpoint cut (sep : ascii) (s : string) : option (string * string) :=
  match s with
  | "" => None
  | String c s' =>
      if decide (c = sep) then Some ("", s')
      else '(a, b) ← cut sep s'; Some (String c a, b)
  end.

(** [s.split(sep, 1)]. *)
Definition split1 (sep : ascii) (s : string) : list string :=
  match cut sep s with
  | None => [s]
  | Some (a, b) => [a; b]
  end.

(** [s.split(sep)]: every piece between separators, empty ones too. *)
Fixpoint split (sep : ascii) (s : string) : list string :=
  match s with
  | "" => [""]
  | String c s' =>
      if decide (c = sep) then "" :: split sep s'
      else match split sep s' with
           | piece :: pieces => String c piece :: pieces
           | [] => [String c ""]
           end
  end.

(** [sep in s] for a one character [sep]. *)
Fixpoint contains (sep : ascii) (s : string) : bool :=
  match s with
  | "" => false
  | String c s' => if decide (c = sep) then true else contains sep s'
  end.

(** [s.endswith(suffix)]. *)
Definition endswith (s suffix : string) : bool :=
  String.prefix (String.rev suffix) (String.rev s).

(** [s.rfind(c)], with [-1] when [c] does not occur. *)
Fixpoint rfind_from (c : ascii) (s : string) (i found : Z) : Z :=
  match s with
  | "" => found
  | String c' s' => rfind_from c s' (i + 1) (if decide (c' = c) then i else found)
  end.
Definition rfind (c : ascii) (s : string) : Z := rfind_from c s 0 (-1).

(** [p[i:j]] for indices that are not negative. *)
Definition slice (p : string) (i j : Z) : string :=
  String.substring (Z.to_nat i) (Z.to_nat (j - i)) p.

(** The [while filenameIndex < dotIndex] loop of [os.path.splitext]:
    the extension starts at the last dot unless only dots come before
    it. *)
Fixpoint splitext_loop (p : string) (dotIndex filenameIndex : Z)
    (fuel : nat) : string * string :=
  match fuel with
  | O => (p, "")
  | S fuel' =>
      if decide (filenameIndex < dotIndex)%Z then
        if decide (slice p filenameIndex (filenameIndex + 1) ≠ ".") then
          (slice p 0 dotIndex,
           slice p dotIndex (Z.of_nat (String.length p)))
        else splitext_loop p dotIndex (filenameIndex + 1) fuel'
      else (p, "")
  end.

(** [os.path.splitext(p)] on a POSIX system. *)
Definition splitext (p : string) : string * string :=
  let sepIndex := rfind "/" p in
  let dotIndex := rfind "." p in
  if decide (dotIndex > sepIndex)%Z then
    splitext_loop p dotIndex (sepIndex + 1) (S (String.length p))
  else (p, "").

(** [sum([len(x) for x in l])]. *)
Definition sum_len (l : list string) : Z :=
  foldr (λ x acc, Z.of_nat (String.length x) + acc)%Z 0%Z l.

(** ** AdminTool.props_from_args *)

(** The loop of [props_from_args]: [props] is the dictionary built so
    far.  A value that is the empty text is stored as [None]. *)
Fixpoint props_from_args_loop (props : gmap string (option string))
    (args : list string) : result (gmap string (option string)) :=
  match args with
  | [] => Return props
  | arg :: args' =>
      let key_val := split1 "=" arg in
      if decide (length key_val < 2) then
        Raise (UsageError (NotPropnameValue arg))
      else
        match key_val with
        | [key; value] =>
            if decide (value ≠ "") then
              props_from_args_loop (<[key := Some value]> props) args'
            else
              props_from_args_loop (<[key := None]> props) args'
        | _ => Raise (ValueError arg)
        end
  end.

Definition props_from_args (args : list string)
    : result (gmap string (option string)) :=
  props_from_args_loop ∅ args.

(** ** The hyperdb schema and classes, as [admin.py] uses them *)

(** Modelled from the spec: the property classes of [roundup.hyperdb],
    which is not part of the sources at hand.  [Link] and [MultiLink]
    carry the name of the class they point to. *)
Inductive PropertyKind : Type :=
  | String_
  | Number
  | Boolean
  | Date
  | Interval
  | Secret
  | Link (classname : string)
  | MultiLink (classname : string).

(** [prop.classname]: only link and multilink properties have the
    attribute, on the others Python raises [AttributeError]. *)
Definition prop_classname (prop : PropertyKind) : option string :=
  match prop with
  | Link classname | MultiLink classname => Some classname
  | _ => None
  end.

(** A row of a colon separated file, after [csv] has split or before it
    joins the fields. *)
Abbreviation Row := (list string).

Section classes.
Context {Value : Type}.

(** The methods of a hyperdb class that [admin.py] calls in the code
    modelled here.  The back end is taken to answer every call, except
    [import_list], whose failure on a row that does not fit the class
    is what the import has to cope with. *)
Record Class : Type := {
  getprops : gmap string PropertyKind;
  export_propnames : list string;
  getnodeids : list string;
  (** [cl.getkey()]: the name of the key property, when there is one. *)
  getkey : option string;
  (** [cl.get(nodeid, propname)] on the key property, a [str]. *)
  get : string → string → string;
  is_retired : string → bool;
  (** [cl.getnode(nodeid)[propname]]. *)
  getnode : string → string → Value;
  export_list : list string → string → Row;
  export_journals : list Row;
  (** [hasattr(cl, 'export_files')] and [hasattr(cl, 'import_files')]:
      only classes with attached files have these methods. *)
  has_export_files : bool;
  has_import_files : bool;
  (** [cl.import_list(file_props, r)] returns the id of the node. *)
  import_list : Row → Row → result string
}.

(** [self.db.classes], in the order in which Python iterates over it;
    the names are expected to be distinct. *)
Definition Classes : Type := list (string * Class).

(** [self.db.getclass(classname)], [None] for Python's [KeyError]. *)
Fixpoint getclass (classes : Classes) (classname : string) : option Class :=
  match classes with
  | [] => None
  | (name, cl) :: classes' =>
      if decide (name = classname) then Some cl else getclass classes' classname
  end.

(** [AdminTool.get_class]. *)
Definition get_class (classes : Classes) (classname : string) : result Class :=
  match getclass classes classname with
  | Some cl => Return cl
  | None => Raise (UsageError (NoSuchClass classname))
  end.

(** ** AdminTool.do_filter: the transitive property walk *)

(** The local variables of [do_filter] that the walk reads and writes.
    [curclassname] is unbound until the first link has been followed;
    it keeps its value from one argument to the next. *)
Record Walk : Type := {
  curclass : Class;
  lastprop : string;
  curclassname : option string
}.

(** The [for pn in propname.split('.')] loop.  A missing property is
    answered with a [UsageError] whose text is formatted from
    [locals()], which itself raises [KeyError] while [curclassname] is
    unbound.  A property without [classname] raises [AttributeError],
    which the loop passes over. *)
Fixpoint do_filter_walk (classes : Classes) (propname : string)
    (pns : list string) (st : Walk) : result Walk :=
  match pns with
  | [] => Return st
  | pn :: pns' =>
      let st := {| curclass := curclass st; lastprop := pn;
                   curclassname := curclassname st |} in
      match getprops (curclass st) !! pn with
      | None =>
          match curclassname st with
          | Some name => Raise (UsageError (NoProperty name pn propname))
          | None => Raise (KeyError "curclassname")
          end
      | Some prop =>
          match prop_classname prop with
          | None => do_filter_walk classes propname pns' st
          | Some name =>
              cl ← get_class classes name;
              do_filter_walk classes propname pns'
                {| curclass := cl; lastprop := pn; curclassname := Some name |}
          end
      end
  end.

(** From [curclass = cl] to the end of the [if '.' in propname]
    block. *)
Definition do_filter_path (classes : Classes) (cl : Class)
    (propname : string) (curclassname : option string) : result Walk :=
  let st := {| curclass := cl; lastprop := propname;
               curclassname := curclassname |} in
  if contains "." propname then
    do_filter_walk classes propname (split "." propname) st
  else Return st.

Section do_filter.
Context {Typed : Type}.
(** [hyperdb.rawToHyperdb(self.db, cl, None, propname, value)]. *)
Variable rawToHyperdb : Class → string → string → result Typed.

End do_filter.
End classes.
Arguments Class : clear implicits.
Arguments Classes : clear implicits.
Arguments Walk : clear implicits.

(** ** The world outside: files, the terminal, the database *)

(** What the tool prints, before formatting.  [FieldSizeWarning] goes to
    [stderr], the others to [stdout]. *)
Inductive Message : Type :=
  | ExportingWithoutFiles (classname : string)
  | Exporting (classname nodeid : string)
  | ExportingJournal (classname : string)
  | FieldSizeWarning (max_len : Z)
  | Importing (classname : string) (n : nat)
  | Newline
  | Setting (classname : string) (counter : Z).

(** The calls that change the database or write attachments. *)
Inductive Call : Type :=
  | ExportFiles (classname dir nodeid : string)
  | ImportList (classname : string) (file_props r : Row)
  | ImportFiles (classname dir nodeid : string)
  | ImportJournals (classname : string) (rows : list Row).

(** A file is named by its directory and its name in it, which is what
    [os.path.join(dir, name)] stands for; its content is the rows that
    [csv] writes to it or reads from it. *)
Record World : Type := {
  dirs : gset string;
  files : gmap (string * string) (list Row);
  output : list Message;
  calls : list Call;
  (** The id counters, [self.db.setid(classname, counter)]. *)
  ids : gmap string string;
  db_uncommitted : bool
}.

(** A command runs in the world and ends with a value or an exception;
    what it did before an exception stays done. *)
Definition IO (A : Type) : Type := World → World * result A.

#[global] Instance IO_ret : MRet IO := λ A a w, (w, Return a).
#[global] Instance IO_bind : MBind IO := λ A B k m w,
  match m w with
  | (w', Raise e) => (w', Raise e)
  | (w', Return a) => k a w'
  end.

Definition raise {A : Type} (e : Exn) : IO A := λ w, (w, Raise e).

Definition lift {A : Type} (r : result A) : IO A := λ w, (w, r).

Definition modify (f : World → World) : IO unit := λ w, (f w, Return tt).

Definition print (m : Message) : IO unit :=
  modify (λ w, {| dirs := dirs w; files := files w;
                  output := (output w ++ [m])%list; calls := calls w;
                  ids := ids w; db_uncommitted := db_uncommitted w |}).

Definition call (c : Call) : IO unit :=
  modify (λ w, {| dirs := dirs w; files := files w;
                  output := output w; calls := (calls w ++ [c])%list;
                  ids := ids w; db_uncommitted := db_uncommitted w |}).

(** [if not os.path.exists(dir): os.makedirs(dir)]. *)
Definition makedirs (dir : string) : IO unit :=
  modify (λ w, {| dirs := {[dir]} ∪ dirs w; files := files w;
                  output := output w; calls := calls w;
                  ids := ids w; db_uncommitted := db_uncommitted w |}).

(** [open(path, 'w')]: the file is there and empty. *)
Definition open_w (path : string * string) : IO unit :=
  modify (λ w, {| dirs := dirs w; files := <[path := []]> (files w);
                  output := output w; calls := calls w;
                  ids := ids w; db_uncommitted := db_uncommitted w |}).

(** [writer.writerow(row)] on the writer of [path]. *)
Definition writerow (path : string * string) (row : Row) : IO unit :=
  modify (λ w, {| dirs := dirs w;
                  files := <[path := (default [] (files w !! path) ++ [row])%list]> (files w);
                  output := output w; calls := calls w;
                  ids := ids w; db_uncommitted := db_uncommitted w |}).

(** [open(path, 'r')] and a [csv.reader] on it: the rows of the file, or
    [IOError] when there is no such file. *)
Definition open_r (path : string * string) : IO (list Row) := λ w,
  match files w !! path with
  | Some rows => (w, Return rows)
  | None => (w, Raise (IOError (path.1 ++ "/" ++ path.2)))
  end.

(** [self.db.setid(classname, counter)]. *)
Definition setid (classname counter : string) : IO unit :=
  modify (λ w, {| dirs := dirs w; files := files w;
                  output := output w; calls := calls w;
                  ids := <[classname := counter]> (ids w);
                  db_uncommitted := db_uncommitted w |}).

(** [self.db_uncommitted = True]. *)
Definition set_uncommitted : IO unit :=
  modify (λ w, {| dirs := dirs w; files := files w;
                  output := output w; calls := calls w;
                  ids := ids w; db_uncommitted := true |}).

(** [m] started in [w] ends without an exception, in a world and with
    a value that satisfy [Q]. *)
Definition returns {A : Type} (m : IO A) (w : World)
    (Q : World → A → Prop) : Prop :=
  ∃ w' a, m w = (w', Return a) ∧ Q w' a.

(** [m] started in [w] ends with the exception [e], in a world that
    satisfies [Q]. *)
Definition raises {A : Type} (m : IO A) (w : World) (e : Exn)
    (Q : World → Prop) : Prop :=
  ∃ w', m w = (w', Raise e) ∧ Q w'.

(** Whatever way [m] ends, the world it leaves is related by [R] to the
    world it started in. *)
Definition preserves {A : Type} (R : World → World → Prop) (m : IO A) : Prop :=
  ∀ w, R w (m w).1.

(** The id counters and the flag for uncommitted changes are what they
    were. *)
Definition db_untouched (w w' : World) : Prop :=
  ids w' = ids w ∧ db_uncommitted w' = db_uncommitted w.

(** The files and directories are what they were. *)
Definition files_untouched (w w' : World) : Prop :=
  files w' = files w ∧ dirs w' = dirs w.

(** The calls made since [w] all satisfy [P]. *)
Definition calls_grow (P : Call → Prop) (w w' : World) : Prop :=
  ∃ new, calls w' = (calls w ++ new)%list ∧ Forall P new.

(** What an export leaves alone: the counters and the flag, and, apart
    from calls of [export_files] when the files are wanted, the calls. *)
Definition export_leaves (export_files : bool) (w w' : World) : Prop :=
  db_untouched w w' ∧
  calls_grow (λ c, export_files = true ∧
                   ∃ classname dir nodeid, c = ExportFiles classname dir nodeid)
    w w'.

(** What the import of the files of a directory leaves alone: the
    files, the flag for uncommitted changes, and, apart from calls of
    [import_list], of [import_journals] and, when the files are
    wanted, of [import_files], the calls. *)
Definition import_leaves (import_files : bool) (w w' : World) : Prop :=
  files_untouched w w' ∧
  db_uncommitted w' = db_uncommitted w ∧
  calls_grow (λ c, match c with
                   | ImportList _ _ _ | ImportJournals _ _ => True
                   | ImportFiles _ _ _ => import_files = true
                   | ExportFiles _ _ _ => False
                   end) w w'.


(** When [m] returns, its value satisfies [P]. *)
Definition returns_only {A : Type} (P : A → Prop) (m : IO A) : Prop :=
  ∀ w a, (m w).2 = Return a → P a.

(** The messages printed since [w] all satisfy [P]. *)
Definition output_grows (P : Message → Prop) (w w' : World) : Prop :=
  ∃ new, output w' = (output w ++ new)%list ∧ Forall P new.

(** A message that is not the warning about the field size. *)
Definition quiet (m : Message) : Prop := ∀ max_len, m ≠ FieldSizeWarning max_len.

(** [if c: m]. *)
Definition when (c : bool) (m : IO unit) : IO unit :=
  if c then m else mret tt.

(** A [for] loop whose body updates a local variable. *)
Fixpoint for_fold {A B : Type} (body : B → A → IO B) (acc : B)
    (l : list A) : IO B :=
  match l with
  | [] => mret acc
  | x :: l' => acc' ← body acc x; for_fold body acc' l'
  end.

(** A [for] loop whose body only acts on the world. *)
Definition for_each {A : Type} (body : A → IO unit) (l : list A) : IO unit :=
  for_fold (λ _ x, body x) tt l.

(** ** AdminTool.do_export *)

(** The attributes of the tool that export and import read. *)
Record AdminTool (Value : Type) : Type := {
  classes : Classes Value;
  (** [self.db.config.CSV_FIELD_SIZE]. *)
  CSV_FIELD_SIZE : Z;
  verbose : bool
}.
Arguments classes {Value} _.
Arguments CSV_FIELD_SIZE {Value} _.
Arguments verbose {Value} _.

(** [a < b] on pairs of a [str] and a [bool]: the first components
    decide unless they are equal, and [False < True]. *)
Definition tuple_ltb (a b : string * bool) : bool :=
  if decide (a.1 = b.1) then negb a.2 && b.2 else String.ltb a.1 b.1.

(** [l.sort(key=key)]. *)
Definition sort_key {A K : Type} (ltb : K → K → bool) (key : A → K)
    (l : list A) : list A :=
  sorted (λ x y, ltb (key x) (key y)) l.

(** [s[1:]]. *)
Definition tail1 (s : string) : string :=
  match s with
  | "" => ""
  | String _ s' => s'
  end.

Section export.
Context {Value : Type}.
(** [roundup.anypy.strings.repr_export]. *)
Variable repr_export : Value → string.
Variable self : AdminTool Value.

(** [keysort = lambda i: (cl.get(i, classkey), not cl.is_retired(i))]. *)
Definition keysort (cl : Class Value) (classkey : string) (i : string)
    : string * bool :=
  (get cl i classkey, negb (is_retired cl i)).

(** The body of [for p in propnames] that keeps the longest length. *)
Definition track (node : string → Value) (d : Z) (max_len : Z)
    (p : string) : Z :=
  let ll := (Z.of_nat (String.length (repr_export (node p))) + d)%Z in
  if decide (ll > max_len)%Z then ll else max_len.

(** The difference [d] between the length of the row that is written
    and the length of the stored values. *)
Definition row_d (cl : Class Value) (propnames : list string)
    (nodeid : string) : Z :=
  let node := getnode cl nodeid in
  let exp := export_list cl propnames nodeid in
  let lensum := sum_len ((λ p, repr_export (node p)) <$> propnames) in
  (sum_len exp - lensum)%Z.

(** The body of [for nodeid in all_nodes]. *)
Definition export_node (export_files : bool) (dir classname : string)
    (cl : Class Value) (propnames : list string) (max_len : Z)
    (nodeid : string) : IO Z :=
  when (verbose self) (print (Exporting classname nodeid));;
  let node := getnode cl nodeid in
  let exp := export_list cl propnames nodeid in
  let d := row_d cl propnames nodeid in
  if decide (¬ (d > 0)%Z) then raise (AssertionError "Bad assertion d > 0")
  else
    let max_len := foldl (track node d) max_len propnames in
    writerow (dir, classname ++ ".csv") exp;;
    when (export_files && has_export_files cl)
      (call (ExportFiles classname dir nodeid));;
    mret max_len.

(** The rows of the file of a class after its export: the header,
    then one row per node. *)
Definition export_rows (cl : Class Value) (order : list string) : list Row :=
  (export_propnames cl ++ ["is retired"])%list
  :: (export_list cl (export_propnames cl) <$> order).

(** [all_nodes] after the [if classkey] block; an empty key name is
    false for Python. *)
Definition export_order (cl : Class Value) : list string :=
  let all_nodes := getnodeids cl in
  match getkey cl with
  | Some classkey =>
      if decide (classkey ≠ "") then
        sort_key tuple_ltb (keysort cl classkey) all_nodes
      else all_nodes
  | None => all_nodes
  end.

(** The body of [for classname in classes]. *)
Definition export_class (export_files : bool) (dir : string)
    (max_len : Z) (classname : string) : IO Z :=
  cl ← lift (get_class (classes self) classname);
  when (negb export_files && has_export_files cl)
    (print (ExportingWithoutFiles classname));;
  open_w (dir, classname ++ ".csv");;
  let propnames := export_propnames cl in
  let fields := (propnames ++ ["is retired"])%list in
  writerow (dir, classname ++ ".csv") fields;;
  max_len ← for_fold (export_node export_files dir classname cl propnames)
              max_len (export_order cl);
  open_w (dir, classname ++ "-journals.csv");;
  when (verbose self) (print (ExportingJournal classname));;
  for_each (writerow (dir, classname ++ "-journals.csv")) (export_journals cl);;
  mret max_len.

(** The classes named by the arguments. *)
Definition export_classes (args : list string) : list string :=
  if decide (length args = 2) then
    let arg0 := default "" (head args) in
    if startswith arg0 "-" then
      filter (λ c, c ∉ split "," (tail1 arg0)) (classes self).*1
    else split "," arg0
  else (classes self).*1.

Definition do_export (args : list string) (export_files : bool) : IO Z :=
  if decide (length args < 1) then raise (UsageError NotEnoughArguments)
  else
    let dir := default "" (last args) in
    makedirs dir;;
    max_len ← for_fold (export_class export_files dir)
                (CSV_FIELD_SIZE self) (export_classes args);
    when (bool_decide (max_len > CSV_FIELD_SIZE self)%Z)
      (print (FieldSizeWarning max_len));;
    mret 0%Z.

(** [max_len] after the row of [nodeid], and after all rows of a
    class: what the loops of [do_export] compute, without the
    writing. *)
Definition node_max_len (cl : Class Value) (propnames : list string)
    (max_len : Z) (nodeid : string) : Z :=
  foldl (track (getnode cl nodeid) (row_d cl propnames nodeid))
    max_len propnames.

Definition class_max_len (max_len : Z) (cl : Class Value) : Z :=
  foldl (node_max_len cl (export_propnames cl)) max_len (export_order cl).

(** [max_len] at the end of [do_export]. *)
Definition do_export_max_len (args : list string) : Z :=
  foldl (λ max_len classname,
           match getclass (classes self) classname with
           | Some cl => class_max_len max_len cl
           | None => max_len
           end)
    (CSV_FIELD_SIZE self) (export_classes args).

(** The classes of the list are known and all their rows have
    [d > 0]. *)
Definition exportable (classnames : list string) : Prop :=
  Forall (λ classname, ∃ cl,
            getclass (classes self) classname = Some cl ∧
            Forall (λ nodeid,
                      row_d cl (export_propnames cl) nodeid > 0)%Z
              (getnodeids cl)) classnames.

(** [AdminTool.do_exporttables]. *)
Definition do_exporttables (args : list string) : IO Z :=
  do_export args false.
End export.

(** ** AdminTool.do_import *)

(** A [csv.reader] gives up on a row with a field longer than the limit
    set by [csv.field_size_limit]. *)
Definition csv_row (limit : Z) (r : Row) : result Row :=
  if decide (Forall (λ f, Z.of_nat (String.length f) ≤ limit)%Z r) then Return r
  else Raise CsvError.

(** [enumerate(l)]. *)
Definition enumerate {A : Type} (l : list A) : list (nat * A) :=
  zip (seq 0 (length l)) l.

Section import.
Context {Value : Type}.
(** The built-in [int] on a [str]; [ValueError] when the text is not a
    number. *)
Variable int : string → result Z.
(** [os.listdir(dir)], in the order the system gives the names. *)
Variable listdir : string → list string.
Variable self : AdminTool Value.

(** The body of [for n, r in enumerate(reader)]; the local variables
    are [file_props] and [maxid]. *)
Definition import_row (import_files : bool) (dir classname : string)
    (cl : Class Value) (st : option Row * Z) (nr : nat * Row)
    : IO (option Row * Z) :=
  r ← lift (csv_row (CSV_FIELD_SIZE self) nr.2);
  match st.1 with
  | None => mret (Some r, st.2)
  | Some file_props =>
      when (verbose self) (print (Importing classname nr.1));;
      nodeid ← lift (import_list cl file_props r);
      call (ImportList classname file_props r);;
      when (has_import_files cl && import_files)
        (call (ImportFiles classname dir nodeid));;
      n ← lift (int nodeid);
      mret (Some file_props, Z.max st.2 n)
  end.

(** The calls that the loop over the rows makes for rows whose ids
    are [nodeids]. *)
Definition row_calls (import_files : bool) (dir classname : string)
    (cl : Class Value) (file_props : Row) (rows : list Row)
    (nodeids : list string) : list Call :=
  mjoin (zip_with
           (λ r nodeid,
              ImportList classname file_props r
              :: (if has_import_files cl && import_files
                  then [ImportFiles classname dir nodeid] else []))
           rows nodeids).

(** The first [with] block: the rows of the class file are read and
    imported; the value is [maxid]. *)
Definition import_class_rows (import_files : bool) (dir file classname : string)
    (cl : Class Value) : IO Z :=
  reader ← open_r (dir, file);
  st ← for_fold (import_row import_files dir classname cl)
         (None, 1%Z) (enumerate reader);
  print Newline;;
  mret st.2.

(** The second [with] block and the lines after it: the journal file
    is read and imported, then the id counter is set. *)
Definition import_class_journals (dir classname : string)
    (cl : Class Value) (maxid : Z) : IO unit :=
  reader ← open_r (dir, classname ++ "-journals.csv");
  rows ← lift (mapM (csv_row (CSV_FIELD_SIZE self)) reader);
  call (ImportJournals classname rows);;
  print (Setting classname (maxid + 1));;
  setid classname (pretty (maxid + 1)%Z).

(** The body of [for file in os.listdir(dir)]. *)
Definition import_file (import_files : bool) (dir : string)
    (file : string) : IO unit :=
  let '(classname, ext) := splitext file in
  if bool_decide (ext ≠ ".csv") || endswith classname "-journals" then mret tt
  else
    cl ← lift (get_class (classes self) classname);
    maxid ← import_class_rows import_files dir file classname cl;
    import_class_journals dir classname cl maxid.

Definition do_import (args : list string) (import_files : bool) : IO Z :=
  if decide (length args < 1) then raise (UsageError NotEnoughArguments)
  else
    let dir := default "" (head args) in
    for_each (import_file import_files dir) (listdir dir);;
    set_uncommitted;;
    mret 0%Z.

(** [AdminTool.do_importtables]. *)
Definition do_importtables (args : list string) : IO Z :=
  do_import args false.
End import.

(** [repr_export] of a Python [bool], for the rows of the examples. *)
Definition repr_bool (b : bool) : string := if b then "True" else "False".

(** ** AdminTool._get_choice *)

(** What [_get_choice] puts on the terminal: the line with the options
    and the prompts of [my_input]. *)
Inductive Written : Type :=
  | OptionList (list_name : string) (options : list string)
  | Prompt (prompt default : string).

(** How [_get_choice] ends.  [my_input] is the built-in [input], which
    raises [EOFError] when no line is left, as [interactive] expects of
    it. *)
Inductive Choice : Type :=
  | Chosen (value : string)
  | Raised (e : Exn)
  | RaisedEOFError.

(** The [while argument not in options] loop, entered with an argument
    that is not an option.  [answers] are the lines that [my_input]
    has to give; the value comes with the lines that are left and with
    what was written. *)
Fixpoint _get_choice_loop (options : list string) (prompt default : string)
    (answers : list string) : Choice * list string * list Written :=
  match answers with
  | [] => (RaisedEOFError, [], [Prompt prompt default])
  | argument :: answers' =>
      if decide (argument = "") then
        (Chosen default, answers', [Prompt prompt default])
      else if decide (argument ∈ options) then
        (Chosen argument, answers', [Prompt prompt default])
      else
        let '(choice, rest, written) :=
          _get_choice_loop options prompt default answers' in
        (choice, rest, Prompt prompt default :: written)
  end.

(** [AdminTool._get_choice]; [force] is [self.force]. *)
Definition _get_choice (force : bool) (list_name prompt : string)
    (options : list string) (argument : string) (default : option string)
    (answers : list string) : Choice * list string * list Written :=
  match from_option Some (head options) default with
  | None => (Raised IndexError, answers, [])
  | Some default =>
      if decide (argument ∈ options) then (Chosen argument, answers, [])
      else if force then (Chosen default, answers, [])
      else
        let '(choice, rest, written) :=
          _get_choice_loop options prompt default answers in
        (choice, rest, OptionList list_name options :: written)
  end.

(** ** AdminTool.do_reindex *)

(** [A-Za-z] and [0-9]. *)
Definition is_letter (c : ascii) : bool :=
  let n := nat_of_ascii c in
  bool_decide (65 ≤ n ≤ 90 ∨ 97 ≤ n ≤ 122)%nat.

Definition is_digit (c : ascii) : bool :=
  let n := nat_of_ascii c in
  bool_decide (48 ≤ n ≤ 57)%nat.

(** The longest prefix of characters that satisfy [p], and the rest. *)
Fixpoint span (p : ascii → bool) (s : string) : string * string :=
  match s with
  | "" => ("", "")
  | String c s' =>
      if p c then let '(a, b) := span p s' in (String c a, b)
      else ("", s)
  end.

(** Every character of [s] satisfies [p]. *)
Fixpoint all_chars (p : ascii → bool) (s : string) : bool :=
  match s with
  | "" => true
  | String c s' => p c && all_chars p s'
  end.

(** [s] does not start with a digit. *)
Definition no_digit_first (s : string) : Prop :=
  match s with
  | "" => True
  | String c _ => is_digit c = false
  end.

(** [desre.match(arg)] for [designator_re], the groups 1 and 2 of the
    match.  The pattern is matched at the start of [arg] and need not
    reach its end.  Both groups are greedy, and giving back a letter
    never helps, since what follows it is then a letter and not a
    digit: group 1 is the longest run of letters and group 2 the
    longest run of digits after it. *)
Definition designator_re_match (arg : string) : option (string * string) :=
  let '(letters, rest) := span is_letter arg in
  let '(digits, _) := span is_digit rest in
  if decide (letters = "" ∨ digits = "") then None
  else Some (letters, digits).

(** The calls of [do_reindex] that are answered. *)
Inductive Reindexed : Type :=
  | IndexNode (classname nodeid : string)
  | ReindexClass (classname : string)
  | ReindexAll.

(** How [do_reindex] ends: with 0, with an exception of the modelled
    code, or with the [UsageError] for an item that is not there. *)
Inductive ReindexEnd : Type :=
  | ReindexReturn (code : Z)
  | ReindexRaise (e : Exn)
  | NoSuchItem (designator : string).

Section reindex.
Context {Value : Type}.
Variable self : AdminTool Value.
(** [cl.index(nodeid)], with the name of the class for [cl]. *)
Variable index : string → string → result unit.

(** [for arg in args]; the calls made so far are [done]. *)
Fixpoint do_reindex_loop (args : list string) (done : list Reindexed)
    : list Reindexed * ReindexEnd :=
  match args with
  | [] => (done, ReindexReturn 0)
  | arg :: args' =>
      match designator_re_match arg with
      | Some (classname, nodeid) =>
          match get_class (classes self) classname with
          | Raise e => (done, ReindexRaise e)
          | Return _ =>
              match index classname nodeid with
              | Raise IndexError => (done, NoSuchItem arg)
              | Raise e => (done, ReindexRaise e)
              | Return _ =>
                  do_reindex_loop args'
                    (done ++ [IndexNode classname nodeid])%list
              end
          end
      | None =>
          match get_class (classes self) arg with
          | Raise e => (done, ReindexRaise e)
          | Return _ => do_reindex_loop args' (done ++ [ReindexClass arg])%list
          end
      end
  end.

Definition do_reindex (args : list string) : list Reindexed * ReindexEnd :=
  match args with
  | [] => ([ReindexAll], ReindexReturn 0)
  | _ => do_reindex_loop args []
  end.
End reindex.

(** A call that the arguments ask for and that the tracker answers:
    the node of a designator among the arguments, whose class is known
    and that [index] takes, a known class that is itself an argument
    and does not read as a designator, or everything when there is no
    argument. *)
Definition reindex_asked {Value : Type} (self : AdminTool Value)
    (index : string → string → result unit) (args : list string)
    (r : Reindexed) : Prop :=
  match r with
  | IndexNode classname nodeid =>
      is_Some (getclass (classes self) classname) ∧
      index classname nodeid = Return tt ∧
      ∃ arg, arg ∈ args ∧ designator_re_match arg = Some (classname, nodeid)
  | ReindexClass classname =>
      classname ∈ args ∧
      is_Some (getclass (classes self) classname) ∧
      designator_re_match classname = None
  | ReindexAll => args = []
  end.

(** ** AdminTool.main: the options *)

Module main.

(** The attributes that the options set. *)
Record Settings : Type := {
  tracker_home : string;
  name : string;
  password : string;
  separator : option string;
  print_designator : Z;
  verbose : Z
}.

(** How [main] ends before a command is run: after [self.usage], with
    its message, which is empty by default, and the return code, or
    after the version was printed, with the return code 0. *)
Inductive Exit : Type :=
  | Usage (message : string) (code : Z)
  | Version.

(** A login [name:password]: the name is the text before the first
    colon, the password the text between the first and the second
    one; without a colon the password stays. *)
Definition login (text : string) (s : Settings) : Settings :=
  let login_opt := split ":" text in
  {| tracker_home := tracker_home s;
     name := default "" (head login_opt);
     password := default (password s) (login_opt !! 1%nat);
     separator := separator s;
     print_designator := print_designator s;
     verbose := verbose s |}.

(** The attributes before the options are read; [env] is
    [os.environ]. *)
Definition environ (env : gmap string string) : Settings :=
  let s := {| tracker_home := default "" (env !! "TRACKER_HOME");
              name := "admin"; password := "";
              separator := None; print_designator := 0; verbose := 0 |} in
  match env !! "ROUNDUP_LOGIN" with
  | Some text => login text s
  | None => s
  end.

Definition set_separator (sep : string) (s : Settings) : Exit + Settings :=
  match separator s with
  | Some _ =>
      inl (Usage "Only one of -c, -S and -s may be specified" 1)
  | None =>
      inr {| tracker_home := tracker_home s; name := name s;
             password := password s; separator := Some sep;
             print_designator := print_designator s; verbose := verbose s |}
  end.

(** The body of [for opt, arg in opts]. *)
Definition option_step (s : Settings) (oa : string * string)
    : Exit + Settings :=
  let '(opt, arg) := oa in
  if decide (opt = "-h") then inl (Usage "" 0)
  else if decide (opt = "-v") then inl Version
  else if decide (opt = "-V") then
    inr {| tracker_home := tracker_home s; name := name s;
           password := password s; separator := separator s;
           print_designator := print_designator s; verbose := 1 |}
  else if decide (opt = "-i") then
    inr {| tracker_home := arg; name := name s;
           password := password s; separator := separator s;
           print_designator := print_designator s; verbose := verbose s |}
  else if decide (opt = "-c") then set_separator "," s
  else if decide (opt = "-S") then set_separator arg s
  else if decide (opt = "-s") then set_separator " " s
  else if decide (opt = "-d") then
    inr {| tracker_home := tracker_home s; name := name s;
           password := password s; separator := separator s;
           print_designator := 1; verbose := verbose s |}
  else if decide (opt = "-u") then inr (login arg s)
  else inr s.

Fixpoint options (opts : list (string * string)) (s : Settings)
    : Exit + Settings :=
  match opts with
  | [] => inr s
  | oa :: opts' =>
      match option_step s oa with
      | inl exit => inl exit
      | inr s' => options opts' s'
      end
  end.

(** [main] from the options that [getopt] found to the end of the loop
    over them. *)
Definition main (env : gmap string string)
    (opts : list (string * string)) : Exit + Settings :=
  options opts (environ env).

(** The options that choose a separator, and the separator each one
    chooses. *)
Definition is_separator (oa : string * string) : bool :=
  bool_decide (oa.1 ∈ ["-c"; "-S"; "-s"]).

Definition separator_of (oa : string * string) : string :=
  if decide (oa.1 = "-c") then ","
  else if decide (oa.1 = "-S") then oa.2
  else " ".

End main.

(** ** A small tracker for the examples *)

Module Examples.

(** A class without nodes whose values are [unit]; [import_list]
    takes the first field of a row for the id and refuses a row that
    has not as many fields as the header, or a header that is not the
    one the class exports. *)
Definition plain (props : list (string * PropertyKind)) : Class unit := {|
  getprops := list_to_map props;
  export_propnames := props.*1;
  getnodeids := [];
  getkey := None;
  get := λ _ _, "";
  is_retired := λ _, false;
  getnode := λ _ _, tt;
  export_list := λ _ _, [];
  export_journals := [];
  has_export_files := false;
  has_import_files := false;
  import_list := λ file_props r,
    if decide (file_props = (props.*1 ++ ["is retired"])%list) then
      if decide (length r = length file_props) then Return (default "" (head r))
      else Raise (ValueError "row")
    else Raise (KeyError "header")
|}.

Definition issue : Class unit :=
  plain [("id", String_); ("title", String_); ("status", Link "status")].

Definition status : Class unit :=
  plain [("id", String_); ("name", String_)].

Definition tracker : Classes unit := [("issue", issue); ("status", status)].

(** A class with the key [username] whose stored values are texts
    that [repr_export] leaves as they are.  Node 1 is live, node 2 is
    retired, and both are called [admin]. *)
Definition user_values (nodeid propname : string) : string :=
  if decide (propname = "username") then
    if decide (nodeid = "3") then "guest" else "admin"
  else nodeid.

Definition user : Class string := {|
  getprops := list_to_map [("id", String_); ("username", String_)];
  export_propnames := ["id"; "username"];
  getnodeids := ["1"; "2"; "3"];
  getkey := Some "username";
  get := user_values;
  is_retired := λ nodeid, bool_decide (nodeid = "2");
  getnode := user_values;
  export_list := λ propnames nodeid,
    (((λ p, user_values nodeid p) <$> propnames)
     ++ [repr_bool (bool_decide (nodeid = "2"))])%list;
  export_journals := [["1"; "20240101"; "1"; "create"; "{}"]];
  has_export_files := false;
  has_import_files := false;
  import_list := λ _ r, Return (default "" (head r))
|}.

Definition admin_tool : AdminTool string :=
  {| classes := [("user", user)]; CSV_FIELD_SIZE := 131072; verbose := false |}.

(** [int] on a text of decimal digits. *)
Fixpoint digits (s : string) (acc : Z) : option Z :=
  match s with
  | "" => Some acc
  | String c s' => d ← Ascii.is_nat c; digits s' (10 * acc + Z.of_nat d)%Z
  end.

Definition int (s : string) : result Z :=
  match s, digits s 0 with
  | String _ _, Some n => Return n
  | _, _ => Raise (ValueError s)
  end.

Definition import_tool : AdminTool unit :=
  {| classes := tracker; CSV_FIELD_SIZE := 131072; verbose := false |}.

(** A directory with the files of [issue] and [status]. *)
Definition directory (issue_rows : list Row) (status_rows : list Row)
    (status_journal : option (list Row)) : World :=
  {| dirs := {["in"]};
     files :=
       <[("in", "issue.csv") := issue_rows]>
         (<[("in", "issue-journals.csv") := []]>
            (<[("in", "status.csv") := status_rows]>
               (match status_journal with
                | Some rows => {[("in", "status-journals.csv") := rows]}
                | None => ∅
                end)));
     output := []; calls := []; ids := ∅; db_uncommitted := false |}.

Definition listing (dir : string) : list string :=
  ["issue.csv"; "issue-journals.csv"; "status.csv"; "status-journals.csv"].




Definition empty_world : World :=
  {| dirs := ∅; files := ∅; output := []; calls := []; ids := ∅;
     db_uncommitted := false |}.

End Examples.

(** * Properties *)

(** From here on [++] is the concatenation of lists. *)
Open Scope list_scope.

(** ** Python built-ins on examples *)

Example str_examples :
  splitext "issue.csv" = ("issue", ".csv") ∧
  splitext "issue-journals.csv" = ("issue-journals", ".csv") ∧
  splitext ".csv" = (".csv", "") ∧
  splitext "a.b.csv" = ("a.b", ".csv") ∧
  splitext "..x" = ("..x", "") ∧
  splitext "x/.y" = ("x/.y", "") ∧
  splitext "x.d/y" = ("x.d/y", "") ∧
  splitext "README" = ("README", "") ∧
  split "." "a..b" = ["a"; ""; "b"] ∧
  split "," "" = [""] ∧
  split1 "=" "a=b=c" = ["a"; "b=c"] ∧
  split1 "=" "abc" = ["abc"] ∧
  endswith "issue-journals" "-journals" = true ∧
  endswith "journals" "-journals" = false ∧
  sorted String.ltb ["list"; "find"; "login"; "filter"]
    = ["filter"; "find"; "list"; "login"] ∧
  pretty (12 + 1)%Z = "13".
Proof. vm_compute. by split_and!. Qed.

(** ** The sort *)

Section sorting_facts.
Context {A : Type} (ltb : A → A → bool).

Hypothesis before_trans :
  ∀ x y z, before ltb x y → before ltb y z → before ltb x z.
Hypothesis ltb_before : ∀ x y, ltb x y = true → before ltb x y.

Lemma insort_Permutation (x : A) (l : list A) : insort ltb x l ≡ₚ x :: l.
Proof.
  induction l as [|y l IH]; simpl; [done|].
  destruct (ltb y x); [|done].
  rewrite IH. apply Permutation_swap.
Qed.

Lemma sorted_Permutation (l : list A) : sorted ltb l ≡ₚ l.
Proof.
  induction l as [|x l IH]; simpl; [done|].
  rewrite insort_Permutation. by f_equiv.
Qed.

Lemma insort_StronglySorted (x : A) (l : list A) :
  StronglySorted (before ltb) l → StronglySorted (before ltb) (insort ltb x l).
Proof.
  induction 1 as [|y l Hl IH Hy]; simpl.
  - repeat constructor.
  - destruct (ltb y x) eqn:Hyx.
    + constructor; [done|].
      rewrite insort_Permutation. constructor; [|done].
      by apply ltb_before.
    + constructor; [by constructor|].
      constructor; [done|].
      eapply Forall_impl; [exact Hy|]. intros z Hz.
      by apply before_trans with y.
Qed.

Lemma sorted_StronglySorted (l : list A) :
  StronglySorted (before ltb) (sorted ltb l).
Proof.
  induction l as [|x l IH]; simpl; [constructor|].
  by apply insort_StronglySorted.
Qed.
End sorting_facts.

(** Two positions of a strongly sorted list are related in their order. *)
Lemma StronglySorted_lookup {A : Type} (R : A → A → Prop) (l : list A)
    (i j : nat) (x y : A) :
  StronglySorted R l → i < j → l !! i = Some x → l !! j = Some y → R x y.
Proof.
  intros Hl. revert i j. induction Hl as [|z l Hl IH Hz]; intros i j Hij Hi Hj.
  - by rewrite lookup_nil in Hi.
  - destruct j as [|j]; [lia|]. simpl in Hj.
    destruct i as [|i]; simpl in Hi.
    + injection Hi as ->. rewrite Forall_forall in Hz.
      apply Hz. by eapply list_elem_of_lookup_2.
    + apply (IH i j); [lia|done..].
Qed.

(** ** The order on [str] *)

Lemma string_ltb_before (x y : string) :
  before String.ltb x y ↔ String.le x y.
Proof.
  unfold before, String.le, String.ltb, String.leb.
  rewrite (String.compare_antisym x y).
  destruct (String.compare y x); simpl; intuition (try done).
Qed.

Lemma string_before_trans (x y z : string) :
  before String.ltb x y → before String.ltb y z → before String.ltb x z.
Proof. rewrite !string_ltb_before. apply (transitivity (R := String.le)). Qed.

Lemma string_ltb_lt (x y : string) :
  String.ltb x y = true ↔ String.le x y ∧ x ≠ y.
Proof.
  unfold String.le, String.ltb, String.leb.
  destruct (String.compare x y) eqn:Hc; simpl.
  - apply String.compare_eq_iff in Hc. split; [done|]. by intros [_ []].
  - split; [|done]. intros _. split; [done|]. intros ->.
    assert (String.le y y) as Hyy by reflexivity.
    assert (String.ltb y y = false) as Hf by by apply string_ltb_before.
    unfold String.ltb in Hf. by rewrite Hc in Hf.
  - split; [done|]. by intros [[] _].
Qed.

Lemma string_ltb_before_2 (x y : string) :
  String.ltb x y = true → before String.ltb x y.
Proof. rewrite string_ltb_lt, string_ltb_before. tauto. Qed.

(** A duplicate free list sorted by [<=] is sorted by [<]. *)
Lemma StronglySorted_string_strict (l : list string) :
  NoDup l → StronglySorted (before String.ltb) l →
  StronglySorted (λ x y, String.ltb x y = true) l.
Proof.
  intros Hnd Hl. induction Hl as [|x l Hl IH Hx]; [constructor|].
  apply NoDup_cons in Hnd as [Hx' Hnd]. constructor; [by apply IH|].
  rewrite Forall_forall in Hx |- *. intros y Hy.
  apply string_ltb_lt. split.
  - apply string_ltb_before. by apply Hx.
  - intros ->. done.
Qed.

Lemma StronglySorted_filter {A : Type} (R : A → A → Prop) (P : A → Prop)
    `{∀ x, Decision (P x)} (l : list A) :
  StronglySorted R l → StronglySorted R (filter P l).
Proof.
  induction 1 as [|x l Hl IH Hx]; [constructor|].
  rewrite filter_cons. destruct (decide (P x)); [|done].
  constructor; [done|].
  rewrite Forall_forall in Hx |- *. intros y [_ Hy]%list_elem_of_filter. by apply Hx.
Qed.

(** ** CommandDict.get and the command lookup *)

Lemma startswith_refl (s : string) : startswith s s = true.
Proof.
  unfold startswith. induction s as [|a s IH]; simpl; [done|].
  by destruct (ascii_dec a a).
Qed.

Section command_facts.
Context {V : Type}.
Implicit Types (data commands : gmap string V) (key command : string).

Lemma elem_of_keys data name :
  name ∈ CommandDict.keys data ↔ is_Some (data !! name).
Proof.
  unfold CommandDict.keys. rewrite list_elem_of_fmap. split.
  - intros [[k v] [-> Hkv]]. apply elem_of_map_to_list in Hkv. by exists v.
  - intros [v Hv]. exists (name, v). split; [done|].
    by apply elem_of_map_to_list.
Qed.

Lemma elem_of_sorted_keys data name :
  name ∈ sorted String.ltb (CommandDict.keys data) ↔ is_Some (data !! name).
Proof. by rewrite sorted_Permutation, elem_of_keys. Qed.

Lemma sorted_keys_strict data :
  StronglySorted (λ x y, String.ltb x y = true)
    (sorted String.ltb (CommandDict.keys data)).
Proof.
  apply StronglySorted_string_strict.
  - rewrite sorted_Permutation. apply NoDup_fst_map_to_list.
  - apply sorted_StronglySorted.
    + apply string_before_trans.
    + apply string_ltb_before_2.
Qed.

(** The loop collects, in the order of [keylist], the keys that start
    with [key], each with its value. *)
Lemma get_loop_filter data key keylist matching_keys :
  (∀ ki, ki ∈ keylist → is_Some (data !! ki)) →
  ∃ found,
    CommandDict.get_loop data key keylist matching_keys
      = Return (matching_keys ++ found) ∧
    found.*1 = filter (λ ki, startswith ki key) keylist ∧
    ∀ ki v, (ki, v) ∈ found → data !! ki = Some v.
Proof.
  revert matching_keys.
  induction keylist as [|ki keylist IH]; intros matching_keys Hin; simpl.
  - exists []. by rewrite app_nil_r, ?filter_nil; split_and!; [..|set_solver].
  - destruct (startswith ki key) eqn:Hki.
    + rewrite filter_cons_True by (rewrite Hki; exact I).
      destruct (Hin ki) as [v Hv]; [set_solver|]. rewrite Hv.
      destruct (IH (matching_keys ++ [(ki, v)])) as (found & -> & Hfst & Hval);
        [set_solver|].
      exists ((ki, v) :: found). rewrite <- app_assoc. split_and!; [done| |].
      * simpl. by f_equal.
      * intros ki' v' [Heq|Hel]%elem_of_cons; [by simplify_eq|by apply Hval].
    + rewrite filter_cons_False by (rewrite Hki; exact id).
      destruct (IH matching_keys) as (found & -> & Hfst & Hval); [set_solver|].
      by exists found.
Qed.
End command_facts.

(** C4.  The command lookup of [run_command], built on
    [CommandDict.get].  The candidates of a typed name are the
    registered names that start with it, in strictly increasing
    lexicographic order.  A typed name that is registered selects its
    own operation, whatever the candidates are.  Otherwise no candidate
    means an unknown command, one candidate selects that candidate's
    operation, and several candidates are reported together, in their
    sorted order. *)
Theorem run_command_lookup_resolution {V : Type} (commands : gmap string V)
    (command : string) :
  let candidates :=
    filter (λ name, startswith name command)
      (sorted String.ltb (CommandDict.keys commands)) in
  (∀ name, name ∈ candidates ↔
     is_Some (commands !! name) ∧ startswith name command = true) ∧
  StronglySorted (λ x y, String.ltb x y = true) candidates ∧
  match commands !! command with
  | Some function =>
      CommandDict.get (D := unit) commands command CommandDict._marker
        = Return [(command, function)] ∧
      run_command_lookup commands command = Return (Selected command function)
  | None =>
      match candidates with
      | [] => run_command_lookup commands command
                = Return (UnknownCommand command)
      | [name] => ∃ function, commands !! name = Some function ∧
                run_command_lookup commands command
                  = Return (Selected name function)
      | _ => run_command_lookup commands command
                = Return (MultipleCommands command candidates)
      end
  end.
Proof.
  intros candidates. split_and!.
  - intros name. unfold candidates.
    rewrite list_elem_of_filter, elem_of_sorted_keys, Is_true_true. tauto.
  - apply StronglySorted_filter, sorted_keys_strict.
  - unfold run_command_lookup, CommandDict.get.
    destruct (commands !! command) as [function|] eqn:Hcmd; [done|].
    destruct (get_loop_filter commands command
                (sorted String.ltb (CommandDict.keys commands)) [])
      as (found & -> & Hfst & Hval).
    { intros ki. by rewrite elem_of_sorted_keys. }
    fold candidates in Hfst. simpl.
    destruct found as [|[name function] [|kv found]]; simpl in *.
    + by rewrite <- Hfst.
    + rewrite <- Hfst. exists function. split; [|done].
      apply Hval. set_solver.
    + rewrite <- Hfst. destruct kv. done.
Qed.

(** C10.  When a default is handed to [get] and no registered name
    starts with the key, [get] returns the empty list: it does not
    return the default and it does not raise [KeyError]. *)
Theorem get_default_without_match {V D : Type} (data : gmap string V)
    (key : string) (d : D) :
  (∀ name, is_Some (data !! name) → startswith name key = false) →
  CommandDict.get data key (CommandDict.Supplied d) = Return [].
Proof.
  intros Hnone. unfold CommandDict.get.
  destruct (data !! key) as [v|] eqn:Hkey.
  { specialize (Hnone key (mk_is_Some _ _ Hkey)).
    by rewrite startswith_refl in Hnone. }
  destruct (get_loop_filter data key
              (sorted String.ltb (CommandDict.keys data)) [])
    as (found & -> & Hfst & Hval).
  { intros ki. by rewrite elem_of_sorted_keys. }
  simpl. destruct found as [|[name v] found]; [done|].
  assert (startswith name key = false) as Hname.
  { apply Hnone. exists v. apply Hval. set_solver. }
  assert (name ∈ filter (λ ki, startswith ki key)
            (sorted String.ltb (CommandDict.keys data))) as Hin.
  { rewrite <- Hfst. set_solver. }
  apply list_elem_of_filter in Hin as [Hin _]. by rewrite Hname in Hin.
Qed.

Lemma get_default_without_match_witness :
  CommandDict.get (V := nat) (D := nat)
    (<["list" := 1]> (<["login" := 2]> ∅)) "x" (CommandDict.Supplied 7)
  = Return [].
Proof.
  apply get_default_without_match.
  intros name [v Hv].
  destruct (decide (name = "list")) as [->|]; [done|].
  destruct (decide (name = "login")) as [->|]; [done|].
  by rewrite !lookup_insert_ne in Hv.
Defined.

(** ** props_from_args *)

Lemma cut_None (sep : ascii) (s : string) :
  cut sep s = None ↔ contains sep s = false.
Proof.
  induction s as [|c s IH]; simpl; [done|].
  destruct (decide (c = sep)); [done|].
  destruct (cut sep s) as [[a b]|]; simpl; [|tauto].
  split; [done|]. intros Hc. by apply IH in Hc.
Qed.

Lemma string_app_nil (s : string) : ("" ++ s)%string = s.
Proof. reflexivity. Qed.

Lemma string_app_cons (c : ascii) (a s : string) :
  (String c a ++ s)%string = String c (a ++ s)%string.
Proof. reflexivity. Qed.

Lemma cut_Some (sep : ascii) (s a b : string) :
  cut sep s = Some (a, b) ↔
  s = (a ++ String sep b)%string ∧ contains sep a = false.
Proof.
  revert a. induction s as [|c s IH]; intros a; simpl.
  - split; [done|]. intros [Hs _]. by destruct a.
  - destruct (decide (c = sep)) as [->|Hc].
    + split.
      * intros [= <- <-]. done.
      * intros [Hs Ha]. destruct a as [|c' a].
        { rewrite string_app_nil in Hs. by simplify_eq. }
        rewrite string_app_cons in Hs. injection Hs as <- _.
        simpl in Ha. by rewrite decide_True in Ha.
    + split.
      * destruct (cut sep s) as [[a' b']|]; simpl; [|done].
        intros [= <- <-]. destruct (IH a') as [[-> Ha'] _]; [done|].
        rewrite string_app_cons. simpl. by rewrite decide_False.
      * intros [Hs Ha]. destruct a as [|c' a].
        { rewrite string_app_nil in Hs. by simplify_eq. }
        rewrite string_app_cons in Hs. injection Hs as <- ->.
        simpl in Ha. rewrite decide_False in Ha by done.
        assert (cut sep (a ++ String sep b)%string = Some (a, b)) as ->
          by by apply IH.
        done.
Qed.

(** What one argument does to the dictionary. *)
Lemma props_from_args_loop_cons (props : gmap string (option string))
    (arg : string) (args : list string) :
  props_from_args_loop props (arg :: args) =
    match cut "=" arg with
    | None => Raise (UsageError (NotPropnameValue arg))
    | Some (key, value) =>
        props_from_args_loop
          (<[key := if decide (value = "") then None else Some value]> props) args
    end.
Proof.
  simpl. unfold split1. destruct (cut "=" arg) as [[key value]|]; simpl; [|done].
  by repeat case_decide.
Qed.

Lemma props_from_args_loop_app (props : gmap string (option string))
    (args1 args2 : list string) :
  props_from_args_loop props (args1 ++ args2) =
    props' ← props_from_args_loop props args1; props_from_args_loop props' args2.
Proof.
  revert props. induction args1 as [|arg args1 IH]; intros props; [done|].
  rewrite <- app_comm_cons, !props_from_args_loop_cons.
  destruct (cut "=" arg) as [[key value]|]; [|done]. apply IH.
Qed.

Lemma props_from_args_loop_Return (props : gmap string (option string))
    (args : list string) :
  Forall (λ arg, contains "=" arg = true) args →
  ∃ props', props_from_args_loop props args = Return props'.
Proof.
  revert props. induction args as [|arg args IH]; intros props Hargs.
  - by exists props.
  - apply Forall_cons in Hargs as [Harg Hargs].
    rewrite props_from_args_loop_cons.
    destruct (cut "=" arg) as [[key value]|] eqn:Hcut; [by apply IH|].
    apply cut_None in Hcut. congruence.
Qed.

(** Arguments that name other properties leave a property as it is. *)
Lemma props_from_args_loop_other (props props' : gmap string (option string))
    (args : list string) (name : string) :
  contains "=" name = false →
  Forall (λ arg, ∀ text, arg ≠ (name ++ String "=" text)%string) args →
  props_from_args_loop props args = Return props' →
  props' !! name = props !! name.
Proof.
  intros Hname. revert props.
  induction args as [|arg args IH]; intros props Hargs Hloop.
  - by injection Hloop as ->.
  - apply Forall_cons in Hargs as [Harg Hargs].
    rewrite props_from_args_loop_cons in Hloop.
    destruct (cut "=" arg) as [[key value]|] eqn:Hcut; [|done].
    rewrite (IH _ Hargs Hloop). apply lookup_insert_ne. intros ->.
    apply cut_Some in Hcut as [-> _]. by apply (Harg value).
Qed.

(** A property of the result was there before or is named by an
    argument. *)
Lemma props_from_args_loop_dom (props props' : gmap string (option string))
    (args : list string) (name : string) :
  props_from_args_loop props args = Return props' →
  is_Some (props' !! name) →
  is_Some (props !! name) ∨
  ∃ text, (name ++ String "=" text)%string ∈ args ∧ contains "=" name = false.
Proof.
  revert props. induction args as [|arg args IH]; intros props Hloop Hname.
  - injection Hloop as ->. by left.
  - rewrite props_from_args_loop_cons in Hloop.
    destruct (cut "=" arg) as [[key value]|] eqn:Hcut; [|done].
    destruct (IH _ Hloop Hname) as [Hins|(text & Hin & Hno)].
    + destruct (decide (key = name)) as [->|Hne].
      * right. apply cut_Some in Hcut as [-> Hno].
        exists value. split; [left|done].
      * left. by rewrite lookup_insert_ne in Hins.
    + right. exists text. split; [by right|done].
Qed.

(** C8.  [props_from_args] reads the arguments from left to right.  An
    argument without [=] is a usage failure, reported for the first such
    argument.  When every argument has an [=], the result is a
    dictionary in which an argument [name=text] maps [name] to [text]
    when [text] is not empty and to [None] when it is, provided no later
    argument names the same property again; the dictionary has no other
    properties than the named ones. *)
Theorem props_from_args_assignments (args : list string) :
  (∀ pre arg post,
     args = pre ++ arg :: post →
     Forall (λ a, contains "=" a = true) pre →
     contains "=" arg = false →
     props_from_args args = Raise (UsageError (NotPropnameValue arg))) ∧
  (Forall (λ a, contains "=" a = true) args →
   ∃ props,
     props_from_args args = Return props ∧
     (∀ pre name text post,
        args = pre ++ (name ++ String "=" text)%string :: post →
        contains "=" name = false →
        Forall (λ a, ∀ text', a ≠ (name ++ String "=" text')%string) post →
        props !! name = Some (if decide (text = "") then None else Some text)) ∧
     (∀ name, is_Some (props !! name) →
        ∃ text, (name ++ String "=" text)%string ∈ args ∧
                contains "=" name = false)).
Proof.
  unfold props_from_args. split.
  - intros pre arg post -> Hpre Harg.
    rewrite props_from_args_loop_app.
    destruct (props_from_args_loop_Return ∅ pre Hpre) as [props ->].
    cbn [mbind result_bind]. rewrite props_from_args_loop_cons.
    apply cut_None in Harg. by rewrite Harg.
  - intros Hargs.
    destruct (props_from_args_loop_Return ∅ args Hargs) as [props Hprops].
    exists props. split_and!; [done| |].
    + intros pre name text post -> Hname Hpost.
      rewrite props_from_args_loop_app in Hprops.
      apply Forall_app in Hargs as [Hpre _].
      destruct (props_from_args_loop_Return ∅ pre Hpre) as [props0 Hprops0].
      rewrite Hprops0 in Hprops. cbn [mbind result_bind] in Hprops.
      rewrite props_from_args_loop_cons in Hprops.
      assert (cut "=" (name ++ String "=" text)%string = Some (name, text))
        as Hcut by by apply cut_Some.
      rewrite Hcut in Hprops.
      rewrite (props_from_args_loop_other _ _ _ _ Hname Hpost Hprops).
      apply lookup_insert_eq.
    + intros name Hname.
      destruct (props_from_args_loop_dom _ _ _ _ Hprops Hname) as [Hempty|?];
        [|done].
      rewrite lookup_empty in Hempty. by destruct Hempty.
Qed.

Lemma props_from_args_assignments_witness :
  props_from_args ["a=1"; "b"; "c"] = Raise (UsageError (NotPropnameValue "b")) ∧
  ∃ props,
    props_from_args ["a=1"; "b="; "a=2=3"] = Return props ∧
    props !! "a" = Some (Some "2=3") ∧
    props !! "b" = Some None.
Proof.
  split.
  - apply (proj1 (props_from_args_assignments ["a=1"; "b"; "c"]) ["a=1"] "b" ["c"]).
    + reflexivity.
    + by repeat constructor.
    + reflexivity.
  - destruct (proj2 (props_from_args_assignments ["a=1"; "b="; "a=2=3"]))
      as (props & Hprops & Hlast & _).
    { by repeat constructor. }
    exists props. split_and!; [done| |].
    + apply (Hlast ["a=1"; "b="] "a" "2=3" []); [reflexivity..|constructor].
    + apply (Hlast ["a=1"] "b" "" ["a=2=3"]); [reflexivity..|].
      repeat constructor. intros text'. discriminate.
Defined.

(** ** The transitive property walk of do_filter *)

Section walk_facts.
Context {Value : Type}.
Implicit Types (classes : Classes Value) (st : Walk Value).

Lemma do_filter_walk_app classes propname pns1 pns2 st :
  do_filter_walk classes propname (pns1 ++ pns2) st =
    st' ← do_filter_walk classes propname pns1 st;
    do_filter_walk classes propname pns2 st'.
Proof.
  revert st. induction pns1 as [|pn pns1 IH]; intros st; [done|].
  simpl. destruct (getprops (curclass st) !! pn) as [prop|]; [|by destruct curclassname].
  destruct (prop_classname prop) as [name|]; [|apply IH].
  destruct (get_class classes name) as [e|cl]; [done|]. apply IH.
Qed.

(** The walk raises nothing but the two usage errors and the
    [KeyError] of the message that cannot be formatted. *)
Lemma do_filter_walk_Raise classes propname pns st e :
  do_filter_walk classes propname pns st = Raise e →
  (∃ name pn, e = UsageError (NoProperty name pn propname)) ∨
  (∃ name, e = UsageError (NoSuchClass name)) ∨
  e = KeyError "curclassname".
Proof.
  revert st. induction pns as [|pn pns IH]; intros st; simpl; [done|].
  destruct (getprops (curclass st) !! pn) as [prop|].
  - destruct (prop_classname prop) as [name|]; [|apply IH].
    unfold get_class. destruct (getclass classes name) as [cl|]; simpl.
    + apply IH.
    + intros [= <-]. right. left. by exists name.
  - destruct (curclassname st) as [name|]; intros [= <-].
    + left. by exists name, pn.
    + by right; right.
Qed.
End walk_facts.





(** ** The order of the exported rows *)

Lemma tuple_before_trans (a b c : string * bool) :
  before tuple_ltb a b → before tuple_ltb b c → before tuple_ltb a c.
Proof.
  destruct a as [a1 a2], b as [b1 b2], c as [c1 c2].
  unfold before, tuple_ltb; simpl.
  destruct (decide (b1 = a1)) as [Hba|Hba], (decide (c1 = b1)) as [Hcb|Hcb];
    simplify_eq.
  - rewrite decide_True by done. by destruct a2, b2, c2.
  - rewrite decide_False by done. done.
  - rewrite decide_False by done. done.
  - intros Hab Hbc. destruct (decide (c1 = a1)) as [->|Hca].
    + apply string_ltb_before in Hab, Hbc.
      destruct Hba. by apply (anti_symm String.le).
    + by apply string_before_trans with b1.
Qed.

Lemma tuple_ltb_before (a b : string * bool) :
  tuple_ltb a b = true → before tuple_ltb a b.
Proof.
  destruct a as [a1 a2], b as [b1 b2]. unfold before, tuple_ltb; simpl.
  destruct (decide (a1 = b1)) as [->|Hab].
  - rewrite decide_True by done. by destruct a2, b2.
  - rewrite decide_False by done. apply string_ltb_before_2.
Qed.

Section order_facts.
Context {Value : Type}.
Implicit Types (cl : Class Value).

Lemma export_order_Permutation cl : export_order cl ≡ₚ getnodeids cl.
Proof.
  unfold export_order. destruct (getkey cl) as [classkey|]; [|done].
  case_decide; [|done]. apply sorted_Permutation.
Qed.

Lemma export_order_sorted cl classkey :
  getkey cl = Some classkey → classkey ≠ "" →
  StronglySorted
    (λ x y, before tuple_ltb (keysort cl classkey x) (keysort cl classkey y))
    (export_order cl).
Proof.
  intros Hkey Hne. unfold export_order. rewrite Hkey, decide_True by done.
  apply (sorted_StronglySorted
           (λ x y, tuple_ltb (keysort cl classkey x) (keysort cl classkey y))).
  - intros x y z. apply tuple_before_trans.
  - intros x y. apply tuple_ltb_before.
Qed.

(** In the order of the export a retired node comes before a live
    node with the same key. *)
Lemma export_order_retired_first cl classkey (i j : nat) (r l : string) :
  getkey cl = Some classkey → classkey ≠ "" →
  export_order cl !! i = Some r → export_order cl !! j = Some l →
  get cl r classkey = get cl l classkey →
  is_retired cl r = true → is_retired cl l = false →
  i < j.
Proof.
  intros Hkey Hne Hi Hj Hsame Hr Hl.
  destruct (decide (i < j)) as [|Hij]; [done|].
  destruct (decide (i = j)) as [->|Hneq].
  { rewrite Hi in Hj. injection Hj as ->. congruence. }
  assert (before tuple_ltb (keysort cl classkey l) (keysort cl classkey r))
    as Hbefore.
  { apply (StronglySorted_lookup
             (λ x y, before tuple_ltb (keysort cl classkey x)
                       (keysort cl classkey y))
             (export_order cl) j i);
      [by apply export_order_sorted|lia|done..]. }
  unfold before, tuple_ltb, keysort in Hbefore. simpl in Hbefore.
  rewrite decide_True, Hr, Hl in Hbefore by done. done.
Qed.
End order_facts.

(** ** Running commands in the world *)

Ltac io_unfold :=
  cbv beta delta [mbind mret IO_bind IO_ret result_bind result_ret when print
                  call writerow open_w makedirs setid set_uncommitted modify
                  raise lift for_each] in *.

Lemma for_fold_app {A B : Type} (body : B → A → IO B) (acc : B)
    (l1 l2 : list A) (w : World) :
  for_fold body acc (l1 ++ l2) w =
    match for_fold body acc l1 w with
    | (w', Raise e) => (w', Raise e)
    | (w', Return acc') => for_fold body acc' l2 w'
    end.
Proof.
  revert acc w. induction l1 as [|x l1 IH]; intros acc w; simpl; [done|].
  io_unfold. destruct (body acc x w) as [w' [e|acc']]; [done|]. apply IH.
Qed.

(** A loop stops at the first turn that raises. *)
Lemma for_fold_Raise {A B : Type} (body : B → A → IO B) (acc acc' : B)
    (l1 l2 : list A) (x : A) (w w' w'' : World) (e : Exn) :
  for_fold body acc l1 w = (w', Return acc') →
  body acc' x w' = (w'', Raise e) →
  for_fold body acc (l1 ++ x :: l2) w = (w'', Raise e).
Proof.
  intros Hl1 Hx. rewrite for_fold_app, Hl1. simpl. io_unfold. by rewrite Hx.
Qed.

(** Rules for [returns]. *)

Lemma returns_bind {A B : Type} (m : IO A) (k : A → IO B) (w : World)
    (Q : World → B → Prop) :
  returns m w (λ w' a, returns (k a) w' Q) → returns (m ≫= k) w Q.
Proof.
  intros (w1 & a & Hm & w' & b & Hk & HQ). exists w', b. split; [|done].
  unfold mbind, IO_bind. by rewrite Hm.
Qed.

Lemma returns_mret {A : Type} (a : A) (w : World) (Q : World → A → Prop) :
  Q w a → returns (mret a) w Q.
Proof. intros HQ. by exists w, a. Qed.

Lemma returns_modify (f : World → World) (w : World) (Q : World → unit → Prop) :
  Q (f w) tt → returns (modify f) w Q.
Proof. intros HQ. by exists (f w), tt. Qed.

Lemma returns_lift {A : Type} (a : A) (w : World) (Q : World → A → Prop) :
  Q w a → returns (lift (Return a)) w Q.
Proof. intros HQ. by exists w, a. Qed.

Lemma returns_when (c : bool) (m : IO unit) (w : World)
    (Q : World → unit → Prop) :
  (if c then returns m w Q else Q w tt) → returns (when c m) w Q.
Proof. destruct c; [done|]. apply returns_mret. Qed.

Lemma returns_mono {A : Type} (m : IO A) (w : World)
    (Q Q' : World → A → Prop) :
  returns m w Q → (∀ w' a, Q w' a → Q' w' a) → returns m w Q'.
Proof. intros (w' & a & Hm & HQ) HQQ'. exists w', a. auto. Qed.

Lemma returns_eq {A : Type} (m : IO A) (w w' : World) (a : A)
    (Q : World → A → Prop) :
  m w = (w', Return a) → Q w' a → returns m w Q.
Proof. intros Hm HQ. by exists w', a. Qed.

(** One step of a straight line of commands. *)
Ltac returns_step :=
  first
    [ apply returns_bind
    | apply returns_mret
    | apply returns_lift
    | apply returns_when
    | progress unfold print, call, writerow, open_w, makedirs, setid,
        set_uncommitted
    | apply returns_modify ].

Section export_facts.
Context {Value : Type}.
Variable repr_export : Value → string.
Variable self : AdminTool Value.
Implicit Types (cl : Class Value) (w : World).

(** The row of a node with [d > 0] is written and the longest length
    is kept. *)
Lemma export_node_Return export_files dir classname cl propnames max_len
    nodeid w :
  (row_d repr_export cl propnames nodeid > 0)%Z →
  ∃ w',
    export_node repr_export self export_files dir classname cl propnames
      max_len nodeid w
    = (w', Return (node_max_len repr_export cl propnames max_len nodeid)) ∧
    files w' =
      <[(dir, (classname ++ ".csv")%string) :=
          default [] (files w !! (dir, (classname ++ ".csv")%string))
          ++ [export_list cl propnames nodeid]]> (files w).
Proof.
  intros Hd. unfold export_node. rewrite decide_False by tauto.
  io_unfold. destruct (verbose self), export_files, (has_export_files cl);
    simpl; eauto.
Qed.

Lemma export_node_Raise export_files dir classname cl propnames max_len
    nodeid w :
  ¬ (row_d repr_export cl propnames nodeid > 0)%Z →
  ∃ w',
    export_node repr_export self export_files dir classname cl propnames
      max_len nodeid w
    = (w', Raise (AssertionError "Bad assertion d > 0")) ∧
    files w' = files w.
Proof.
  intros Hd. unfold export_node. rewrite decide_True by done.
  io_unfold. destruct (verbose self); simpl; eauto.
Qed.

Lemma export_nodes_Return export_files dir classname cl propnames max_len
    nodes rows w :
  Forall (λ nodeid, row_d repr_export cl propnames nodeid > 0)%Z nodes →
  files w !! (dir, (classname ++ ".csv")%string) = Some rows →
  ∃ w',
    for_fold (export_node repr_export self export_files dir classname cl
                propnames) max_len nodes w
    = (w', Return (foldl (node_max_len repr_export cl propnames) max_len nodes)) ∧
    files w' =
      <[(dir, (classname ++ ".csv")%string) :=
          rows ++ (export_list cl propnames <$> nodes)]> (files w).
Proof.
  revert max_len rows w.
  induction nodes as [|nodeid nodes IH]; intros max_len rows w Hd Hrows.
  - exists w. split; [done|]. simpl. by rewrite app_nil_r, insert_id.
  - apply Forall_cons in Hd as [Hd Hds]. simpl. io_unfold.
    destruct (export_node_Return export_files dir classname cl propnames
                max_len nodeid w Hd) as (w1 & -> & Hw1).
    rewrite Hrows in Hw1. simpl in Hw1.
    destruct (IH (node_max_len repr_export cl propnames max_len nodeid)
                (rows ++ [export_list cl propnames nodeid]) w1 Hds)
      as (w' & -> & Hw').
    { by rewrite Hw1, lookup_insert_eq. }
    exists w'. split; [done|].
    by rewrite Hw', Hw1, insert_insert_eq, <- app_assoc.
Qed.

Lemma writerows_returns path (rows0 rows : list Row) w
    (Q : World → unit → Prop) :
  files w !! path = Some rows0 →
  (∀ w', files w' = <[path := rows0 ++ rows]> (files w) →
         output w' = output w → Q w' tt) →
  returns (for_each (writerow path) rows) w Q.
Proof.
  unfold for_each. revert rows0 w.
  induction rows as [|row rows IH]; intros rows0 w Hrows0 HQ; simpl.
  - apply returns_mret, HQ; [|done]. by rewrite app_nil_r, insert_id.
  - repeat returns_step. eapply (IH (rows0 ++ [row])).
    + simpl. rewrite Hrows0. apply lookup_insert_eq.
    + simpl. intros w' Hw' Hout. apply HQ; [|done].
      by rewrite Hw', Hrows0, insert_insert_eq, <- app_assoc.
Qed.

(** A class that is known and whose rows all have [d > 0] is exported
    in full: the row file holds the header and one row per node, in
    the order of the export, and the journal file holds the
    journal. *)
Lemma export_class_returns export_files dir max_len classname cl w
    (Q : World → Z → Prop) :
  getclass (classes self) classname = Some cl →
  Forall (λ nodeid, row_d repr_export cl (export_propnames cl) nodeid > 0)%Z
    (getnodeids cl) →
  (∀ w',
     files w' =
       <[(dir, (classname ++ "-journals.csv")%string) := export_journals cl]>
         (<[(dir, (classname ++ ".csv")%string) :=
              (export_propnames cl ++ ["is retired"])
              :: (export_list cl (export_propnames cl) <$> export_order cl)]>
            (files w)) →
     Q w' (class_max_len repr_export max_len cl)) →
  returns (export_class repr_export self export_files dir max_len classname)
    w Q.
Proof.
  intros Hcl Hd HQ. unfold export_class, get_class. rewrite Hcl.
  rewrite <- export_order_Permutation in Hd.
  do 2 returns_step.
  destruct (verbose self), (negb export_files && has_export_files cl);
    repeat returns_step.
  all: match goal with
       | |- returns (for_fold _ _ _) ?w0 _ =>
           destruct (export_nodes_Return export_files dir
               classname cl (export_propnames cl) max_len (export_order cl)
               [export_propnames cl ++ ["is retired"]] w0 Hd)
             as (w2 & Hw2 & Hf2);
             [simpl; by rewrite lookup_insert_eq, lookup_insert_eq|];
           eapply returns_eq; [exact Hw2|]
       end.
  all: repeat returns_step.
  all: eapply (writerows_returns _ []); [simpl; apply lookup_insert_eq|].
  all: intros w' Hw' _; apply returns_mret, HQ.
  all: rewrite Hw'; simpl; rewrite Hf2; simpl.
  all: by rewrite !insert_insert_eq.
Qed.

(** Whether or not the loop over the nodes ends with an exception, the
    rows it has written are those of the first nodes of the list. *)
Lemma export_nodes_prefix export_files dir classname cl propnames max_len
    nodes rows w :
  files w !! (dir, (classname ++ ".csv")%string) = Some rows →
  ∃ w' r done,
    for_fold (export_node repr_export self export_files dir classname cl
                propnames) max_len nodes w = (w', r) ∧
    done `prefix_of` nodes ∧
    files w' =
      <[(dir, (classname ++ ".csv")%string) :=
          rows ++ (export_list cl propnames <$> done)]> (files w) ∧
    (∀ max_len', r = Return max_len' → done = nodes).
Proof.
  revert max_len rows w.
  induction nodes as [|nodeid nodes IH]; intros max_len rows w Hrows.
  - exists w, (Return max_len), []. split_and!; [done..| |done].
    simpl. by rewrite app_nil_r, insert_id.
  - simpl. unfold mbind, IO_bind.
    destruct (decide (row_d repr_export cl propnames nodeid > 0)%Z) as [Hd|Hd].
    + destruct (export_node_Return export_files dir classname cl propnames
                  max_len nodeid w Hd) as (w1 & -> & Hw1).
      rewrite Hrows in Hw1. simpl in Hw1.
      destruct (IH (node_max_len repr_export cl propnames max_len nodeid)
                  (rows ++ [export_list cl propnames nodeid]) w1)
        as (w' & r & done & -> & Hpre & Hw' & Hall).
      { by rewrite Hw1, lookup_insert_eq. }
      exists w', r, (nodeid :: done). split_and!; [done| | |].
      * by apply prefix_cons.
      * by rewrite Hw', Hw1, insert_insert_eq, <- app_assoc.
      * intros max_len' Hr. f_equal. by eapply Hall.
    + destruct (export_node_Raise export_files dir classname cl propnames
                  max_len nodeid w Hd) as (w1 & -> & Hw1).
      exists w1, (Raise (AssertionError "Bad assertion d > 0")), [].
      split_and!; [done|apply prefix_nil| |done].
      simpl. by rewrite app_nil_r, Hw1, insert_id.
Qed.

Lemma csv_path_ne (dir classname : string) :
  (dir, (classname ++ ".csv")%string)
  ≠ (dir, (classname ++ "-journals.csv")%string).
Proof. intros [= Heq]. by apply (inj (String.app classname)) in Heq. Qed.

(** The export of a known class, however it ends: the row file holds
    the header and the rows of the first nodes in the order of the
    export, and all of them when there was no exception. *)
Lemma export_class_prefix export_files dir max_len classname cl w :
  getclass (classes self) classname = Some cl →
  ∃ w' r done,
    export_class repr_export self export_files dir max_len classname w
      = (w', r) ∧
    done `prefix_of` export_order cl ∧
    files w' !! (dir, (classname ++ ".csv")%string) =
      Some ((export_propnames cl ++ ["is retired"])
            :: (export_list cl (export_propnames cl) <$> done)) ∧
    (∀ max_len', r = Return max_len' → done = export_order cl).
Proof.
  intros Hcl. unfold export_class, get_class. rewrite Hcl.
  unfold mbind at 1, IO_bind at 1, lift at 1.
  unfold mbind at 1, IO_bind at 1.
  destruct (when (negb export_files && has_export_files cl)
              (print (ExportingWithoutFiles classname)) w)
    as [w0 r0] eqn:Hw0.
  assert (r0 = Return tt ∧ files w0 = files w) as [-> Hf0].
  { revert Hw0. unfold when, print, modify.
    destruct (negb export_files && has_export_files cl);
      by intros [= <- <-]. }
  unfold mbind at 1, IO_bind at 1, open_w at 1, modify at 1.
  unfold mbind at 1, IO_bind at 1, writerow at 1, modify at 1.
  unfold mbind at 1, IO_bind at 1.
  match goal with
  | |- context [for_fold _ _ _ ?w1] =>
      destruct (export_nodes_prefix export_files dir classname cl
                  (export_propnames cl) max_len (export_order cl)
                  [export_propnames cl ++ ["is retired"]] w1)
        as (w2 & r & done & Hrun & Hpre & Hf2 & Hall)
  end.
  { simpl. by rewrite lookup_insert_eq, lookup_insert_eq. }
  rewrite Hrun. destruct r as [e|max_len'].
  { exists w2, (Raise e), done. split_and!; [done..| |done].
    rewrite Hf2. apply lookup_insert_eq. }
  match goal with
  | |- ∃ w' r done, ?m w2 = _ ∧ _ =>
      assert (returns m w2 (λ w' a, a = max_len' ∧
                files w' !! (dir, (classname ++ ".csv")%string)
                = files w2 !! (dir, (classname ++ ".csv")%string)))
        as (w' & a & Hrest & -> & Hf')
  end.
  { assert (∀ w3, files w3 !! (dir, (classname ++ "-journals.csv")%string)
                    = Some [] →
              files w3 !! (dir, (classname ++ ".csv")%string)
                = files w2 !! (dir, (classname ++ ".csv")%string) →
              returns (for_each (writerow (dir, (classname ++ "-journals.csv")%string))
                         (export_journals cl);; mret max_len') w3
                (λ w' a, a = max_len' ∧
                   files w' !! (dir, (classname ++ ".csv")%string)
                   = files w2 !! (dir, (classname ++ ".csv")%string)))
      as Hjournal.
    { intros w3 Hj Hrow. returns_step.
      eapply writerows_returns; [exact Hj|].
      intros w4 Hw4 _. returns_step. split; [done|].
      rewrite Hw4, lookup_insert_ne by (symmetry; apply csv_path_ne). done. }
    apply returns_bind. unfold open_w. apply returns_modify.
    apply returns_bind, returns_when.
    destruct (verbose self);
      [unfold print; apply returns_modify|]; apply Hjournal; simpl;
      try apply lookup_insert_eq;
      by rewrite lookup_insert_ne by (symmetry; apply csv_path_ne). }
  exists w', (Return max_len'), done. split_and!; [done..| |done].
  rewrite Hf', Hf2. apply lookup_insert_eq.
Qed.
End export_facts.

(** ** The exported rows *)

(** C3.  The export of a class with a key property writes, after the
    header, the rows of the nodes in an order in which a retired node
    always comes strictly before a live node with the same key value.
    This holds for the rows written before an exception as well; when
    the export of the class ends without one, every node of the class
    has its row. *)
Theorem export_class_retired_before_live {Value : Type}
    (repr_export : Value → string) (self : AdminTool Value)
    (export_files : bool) (dir : string) (max_len : Z) (classname : string)
    (cl : Class Value) (classkey : string) (w : World) :
  getclass (classes self) classname = Some cl →
  getkey cl = Some classkey →
  classkey ≠ "" →
  ∃ w' r done,
    export_class repr_export self export_files dir max_len classname w = (w', r) ∧
    files w' !! (dir, (classname ++ ".csv")%string) =
      Some ((export_propnames cl ++ ["is retired"])
            :: (export_list cl (export_propnames cl) <$> done)) ∧
    (∀ max_len', r = Return max_len' → done ≡ₚ getnodeids cl) ∧
    ∀ (i j : nat) (retired live : string),
      done !! i = Some retired → done !! j = Some live →
      get cl retired classkey = get cl live classkey →
      is_retired cl retired = true → is_retired cl live = false →
      i < j.
Proof.
  intros Hcl Hkey Hne.
  destruct (export_class_prefix repr_export self export_files dir max_len
              classname cl w Hcl) as (w' & r & done & Hrun & Hpre & Hfile & Hall).
  exists w', r, done. split_and!; [done..| |].
  - intros max_len' Hr. rewrite (Hall _ Hr). apply export_order_Permutation.
  - intros i j retired live Hi Hj.
    apply (export_order_retired_first cl classkey i j retired live Hkey Hne).
    + by eapply prefix_lookup_Some.
    + by eapply prefix_lookup_Some.
Qed.

Lemma export_class_retired_before_live_witness :
  ∃ w' r done,
    export_class id Examples.admin_tool true "out" 131072 "user"
      Examples.empty_world = (w', r) ∧
    files w' !! ("out", "user.csv") =
      Some (["id"; "username"; "is retired"]
            :: (export_list Examples.user ["id"; "username"] <$> done)) ∧
    (∀ max_len', r = Return max_len' → done ≡ₚ ["1"; "2"; "3"]) ∧
    ∀ (i j : nat) (retired live : string),
      done !! i = Some retired → done !! j = Some live →
      Examples.user_values retired "username" = Examples.user_values live "username" →
      bool_decide (retired = "2") = true → bool_decide (live = "2") = false →
      i < j.
Proof.
  apply (export_class_retired_before_live id Examples.admin_tool true "out"
           131072 "user" Examples.user "username" Examples.empty_world);
    [reflexivity|reflexivity|discriminate].
Defined.

Example export_class_user :
  export_order Examples.user = ["2"; "1"; "3"] ∧
  files (export_class id Examples.admin_tool true "out" 131072 "user"
           Examples.empty_world).1 !! ("out", "user.csv") =
    Some [["id"; "username"; "is retired"];
          ["2"; "admin"; "True"]; ["1"; "admin"; "False"];
          ["3"; "guest"; "False"]].
Proof. split; reflexivity. Qed.

(** ** The assertion on the length of a row *)

Lemma sum_len_app (l1 l2 : list string) :
  sum_len (l1 ++ l2) = (sum_len l1 + sum_len l2)%Z.
Proof.
  unfold sum_len. induction l1 as [|x l1 IH]; simpl; [done|].
  rewrite IH. lia.
Qed.



Section assertion_facts.
Context {Value : Type}.
Variable repr_export : Value → string.
Variable self : AdminTool Value.



End assertion_facts.




(** ** The longest field *)

Section foldl_facts.
Context {A : Type} (f : Z → A → Z).
Hypothesis f_ge : ∀ m x, (m ≤ f m x)%Z.

Lemma foldl_ge (m : Z) (l : list A) : (m ≤ foldl f m l)%Z.
Proof.
  revert m. induction l as [|x l IH]; intros m; simpl; [lia|].
  specialize (IH (f m x)). specialize (f_ge m x). lia.
Qed.

Lemma foldl_ge_elem (g : A → Z) (m : Z) (l : list A) (x : A) :
  (∀ m, g x ≤ f m x)%Z → x ∈ l → (g x ≤ foldl f m l)%Z.
Proof.
  intros Hg Hx. apply list_elem_of_split in Hx as (l1 & l2 & ->).
  rewrite foldl_app. simpl.
  pose proof (foldl_ge (f (foldl f m l1) x) l2) as Hge.
  specialize (Hg (foldl f m l1)). lia.
Qed.
End foldl_facts.

Section max_len_facts.
Context {Value : Type}.
Variable repr_export : Value → string.
Implicit Types (cl : Class Value).

Lemma track_ge node d max_len p :
  (max_len ≤ track repr_export node d max_len p)%Z.
Proof. unfold track. case_decide; lia. Qed.

Lemma track_ge_field node d max_len p :
  (Z.of_nat (String.length (repr_export (node p))) + d
   ≤ track repr_export node d max_len p)%Z.
Proof. unfold track. case_decide; lia. Qed.

Lemma node_max_len_ge cl propnames max_len nodeid :
  (max_len ≤ node_max_len repr_export cl propnames max_len nodeid)%Z.
Proof. apply foldl_ge. intros m p. apply track_ge. Qed.

Lemma node_max_len_ge_field cl propnames max_len nodeid p :
  p ∈ propnames →
  (Z.of_nat (String.length (repr_export (getnode cl nodeid p)))
   + row_d repr_export cl propnames nodeid
   ≤ node_max_len repr_export cl propnames max_len nodeid)%Z.
Proof.
  intros Hp. unfold node_max_len.
  apply (foldl_ge_elem _ (λ m p, track_ge _ _ m p)
           (λ p, Z.of_nat (String.length (repr_export (getnode cl nodeid p)))
                 + row_d repr_export cl propnames nodeid)%Z); [|done].
  intros m. apply track_ge_field.
Qed.

Lemma class_max_len_ge cl max_len :
  (max_len ≤ class_max_len repr_export max_len cl)%Z.
Proof. apply foldl_ge. intros m nodeid. apply node_max_len_ge. Qed.

Lemma class_max_len_ge_field cl max_len nodeid p :
  nodeid ∈ getnodeids cl → p ∈ export_propnames cl →
  (Z.of_nat (String.length (repr_export (getnode cl nodeid p)))
   + row_d repr_export cl (export_propnames cl) nodeid
   ≤ class_max_len repr_export max_len cl)%Z.
Proof.
  intros Hnode Hp. unfold class_max_len.
  rewrite <- export_order_Permutation in Hnode.
  apply list_elem_of_split in Hnode as (l1 & l2 & ->).
  rewrite foldl_app. simpl.
  etrans; [|apply foldl_ge; intros m x; apply node_max_len_ge].
  by apply node_max_len_ge_field.
Qed.

Variable self : AdminTool Value.

Lemma do_export_max_len_ge args :
  (CSV_FIELD_SIZE self ≤ do_export_max_len repr_export self args)%Z.
Proof.
  apply foldl_ge. intros m classname.
  destruct (getclass (classes self) classname); [|lia].
  apply class_max_len_ge.
Qed.

Lemma do_export_max_len_ge_field args classname cl nodeid p :
  classname ∈ export_classes self args →
  getclass (classes self) classname = Some cl →
  nodeid ∈ getnodeids cl → p ∈ export_propnames cl →
  (Z.of_nat (String.length (repr_export (getnode cl nodeid p)))
   + row_d repr_export cl (export_propnames cl) nodeid
   ≤ do_export_max_len repr_export self args)%Z.
Proof.
  intros Hcn Hcl Hnode Hp. unfold do_export_max_len.
  set (step := λ (max_len : Z) (classname : string),
                 match getclass (classes self) classname with
                 | Some cl => class_max_len repr_export max_len cl
                 | None => max_len
                 end).
  assert (∀ m x, (m ≤ step m x)%Z) as Hstep.
  { intros m x. unfold step. destruct (getclass (classes self) x); [|lia].
    apply class_max_len_ge. }
  apply list_elem_of_split in Hcn as (l1 & l2 & ->).
  rewrite foldl_app. simpl.
  etrans; [|apply (foldl_ge step Hstep)].
  unfold step at 1. rewrite Hcl. by apply class_max_len_ge_field.
Qed.
End max_len_facts.

(** ** The whole export *)

Lemma string_length_app (a b : string) :
  String.length (a ++ b)%string = String.length a + String.length b.
Proof. induction a as [|c a IH]; [done|]. rewrite string_app_cons. simpl. lia. Qed.

Lemma string_app_assoc (a b c : string) :
  ((a ++ b) ++ c)%string = (a ++ (b ++ c))%string.
Proof.
  induction a as [|x a IH]; [done|]. rewrite !string_app_cons. by f_equal.
Qed.

Lemma string_app_inj_r (a b s : string) :
  (a ++ s)%string = (b ++ s)%string → a = b.
Proof.
  revert b. induction a as [|x a IH]; intros [|y b] Heq; [done| | |].
  - apply (f_equal String.length) in Heq.
    rewrite string_app_nil, string_length_app in Heq. simpl in Heq. lia.
  - apply (f_equal String.length) in Heq.
    rewrite string_app_nil, string_length_app in Heq. simpl in Heq. lia.
  - rewrite !string_app_cons in Heq. injection Heq as -> Heq.
    f_equal. by apply IH.
Qed.

Section do_export_facts.
Context {Value : Type}.
Variable repr_export : Value → string.
Variable self : AdminTool Value.
Implicit Types (cl : Class Value) (w : World).

Lemma export_classes_returns export_files dir classnames max_len w
    (Q : World → Z → Prop) :
  exportable repr_export self classnames →
  (∀ w',
     (∀ classname cl,
        getclass (classes self) classname = Some cl →
        (∀ other, other ∈ classnames →
                  classname ≠ (other ++ "-journals")%string) →
        files w' !! (dir, (classname ++ ".csv")%string) =
          if decide (classname ∈ classnames)
          then Some (export_rows cl (export_order cl))
          else files w !! (dir, (classname ++ ".csv")%string)) →
     Q w' (foldl (λ max_len classname,
                    match getclass (classes self) classname with
                    | Some cl => class_max_len repr_export max_len cl
                    | None => max_len
                    end) max_len classnames)) →
  returns (for_fold (export_class repr_export self export_files dir)
             max_len classnames) w Q.
Proof.
  revert max_len w Q.
  induction classnames as [|c cs IH]; intros max_len w Q Hok HQ; simpl.
  - apply returns_mret, HQ. intros classname cl _ _.
    rewrite decide_False; [done|]. apply not_elem_of_nil.
  - apply Forall_cons in Hok as [(clc & Hc & Hd) Hok].
    apply returns_bind.
    apply (export_class_returns repr_export self export_files dir max_len
             c clc w _ Hc Hd).
    intros w1 Hf1. apply IH; [done|]. intros w' Hfiles.
    simpl in HQ. rewrite Hc in HQ. apply HQ. intros classname cl Hcl Hother.
    rewrite (Hfiles classname cl Hcl) by (intros other ?; apply Hother; by right).
    assert ((dir, (c ++ "-journals.csv")%string)
            ≠ (dir, (classname ++ ".csv")%string)) as Hj.
    { intros [= Heq]. apply (Hother c); [by left|].
      change "-journals.csv" with ("-journals" ++ ".csv")%string in Heq.
      rewrite <- string_app_assoc in Heq. by apply string_app_inj_r in Heq. }
    destruct (decide (classname ∈ cs)) as [Hin|Hnin].
    + rewrite decide_True; [done|by right].
    + rewrite Hf1, lookup_insert_ne by done.
      destruct (decide (classname = c)) as [->|Hne].
      * rewrite decide_True by by left. rewrite lookup_insert_eq.
        by simplify_eq.
      * rewrite decide_False by (by intros [?|?]%elem_of_cons).
        apply lookup_insert_ne. intros [= Heq].
        by apply string_app_inj_r in Heq.
Qed.
End do_export_facts.



(** ** The import *)

(** Rules for [raises]. *)

Lemma raises_bind_l {A B : Type} (m : IO A) (k : A → IO B) (w : World)
    (e : Exn) (Q : World → Prop) :
  raises m w e Q → raises (m ≫= k) w e Q.
Proof.
  intros (w' & Hm & HQ). exists w'. split; [|done].
  unfold mbind, IO_bind. by rewrite Hm.
Qed.

Lemma raises_bind_r {A B : Type} (m : IO A) (k : A → IO B) (w : World)
    (e : Exn) (Q : World → Prop) :
  returns m w (λ w' a, raises (k a) w' e Q) → raises (m ≫= k) w e Q.
Proof.
  intros (w1 & a & Hm & w' & Hk & HQ). exists w'. split; [|done].
  unfold mbind, IO_bind. by rewrite Hm.
Qed.

Lemma raises_lift {A : Type} (w : World) (e : Exn) (Q : World → Prop) :
  Q w → raises (lift (A := A) (Raise e)) w e Q.
Proof. intros HQ. by exists w. Qed.

Lemma enumerate_from_app {A : Type} (k : nat) (l1 l2 : list A) :
  zip (seq k (length (l1 ++ l2))) (l1 ++ l2) =
    zip (seq k (length l1)) l1 ++ zip (seq (k + length l1) (length l2)) l2.
Proof.
  rewrite length_app, seq_app. apply zip_with_app. by rewrite length_seq.
Qed.

Lemma mapM_csv_row (limit : Z) (rows : list Row) :
  Forall (λ r, csv_row limit r = Return r) rows →
  mapM (csv_row limit) rows = Return rows.
Proof.
  induction 1 as [|r rows Hr Hrows IH]; [done|].
  cbn [mapM]. rewrite Hr, IH. reflexivity.
Qed.

Section import_facts.
Context {Value : Type}.
Variable int : string → result Z.
Variable self : AdminTool Value.
Implicit Types (cl : Class Value) (w : World).

(** A row that the class takes and whose id is a number. *)
Lemma import_row_returns import_files dir classname cl file_props maxid n r
    nodeid z w (Q : World → option Row * Z → Prop) :
  csv_row (CSV_FIELD_SIZE self) r = Return r →
  import_list cl file_props r = Return nodeid →
  int nodeid = Return z →
  (∀ w', ids w' = ids w → files w' = files w →
         calls w' = calls w
           ++ row_calls import_files dir classname cl file_props [r] [nodeid] →
         Q w' (Some file_props, Z.max maxid z)) →
  returns (import_row int self import_files dir classname cl
             (Some file_props, maxid) (n, r)) w Q.
Proof.
  intros Hcsv Himp Hint HQ. unfold import_row. simpl.
  rewrite Hcsv. apply returns_bind, returns_lift. simpl.
  rewrite Himp. unfold row_calls in HQ. simpl in HQ.
  destruct (verbose self), (has_import_files cl && import_files);
    do 7 returns_step; simpl; rewrite ?Hint; repeat returns_step;
    apply HQ; simpl; try done; by rewrite <- ?app_assoc.
Qed.

(** A row that the class refuses. *)
Lemma import_row_raises import_files dir classname cl file_props maxid n r
    e w :
  csv_row (CSV_FIELD_SIZE self) r = Return r →
  import_list cl file_props r = Raise e →
  raises (import_row int self import_files dir classname cl
            (Some file_props, maxid) (n, r)) w e
    (λ w', ids w' = ids w ∧ files w' = files w ∧ calls w' = calls w).
Proof.
  intros Hcsv Himp. unfold import_row. simpl. rewrite Hcsv.
  apply raises_bind_r, returns_lift. simpl. rewrite Himp.
  apply raises_bind_r, returns_when.
  destruct (verbose self).
  - unfold print. apply returns_modify.
    apply raises_bind_l, raises_lift. done.
  - apply raises_bind_l, raises_lift. done.
Qed.

(** The loop over rows that the class takes. *)
Lemma import_rows_returns import_files dir classname cl file_props rows
    nodeids zs :
  Forall (λ r, csv_row (CSV_FIELD_SIZE self) r = Return r) rows →
  Forall2 (λ r nodeid, import_list cl file_props r = Return nodeid)
    rows nodeids →
  Forall2 (λ nodeid z, int nodeid = Return z) nodeids zs →
  ∀ (k : nat) (maxid : Z) w (Q : World → option Row * Z → Prop),
    (∀ w', ids w' = ids w → files w' = files w →
           calls w' = calls w
             ++ row_calls import_files dir classname cl file_props rows nodeids →
           Q w' (Some file_props, foldl Z.max maxid zs)) →
    returns (for_fold (import_row int self import_files dir classname cl)
               (Some file_props, maxid) (zip (seq k (length rows)) rows)) w Q.
Proof.
  intros Hcsv Himp. revert zs Hcsv.
  induction Himp as [|r nodeid rows nodeids Hr Himp IH];
    intros zs Hcsv Hint k maxid w Q HQ.
  - apply Forall2_nil_inv_l in Hint as ->. simpl.
    apply returns_mret, HQ; [done..|]. by rewrite app_nil_r.
  - apply Forall2_cons_inv_l in Hint as (z & zs' & Hz & Hint & ->).
    apply Forall_cons in Hcsv as [Hcsv1 Hcsv].
    simpl. apply returns_bind.
    eapply import_row_returns; [done..|].
    intros w1 Hids1 Hfiles1 Hcalls1.
    apply (IH zs' Hcsv Hint (S k) (Z.max maxid z) w1).
    intros w' Hids Hfiles Hcalls. apply HQ; [congruence..|].
    rewrite Hcalls, Hcalls1. unfold row_calls. simpl.
    rewrite app_nil_r, <- app_assoc. done.
Qed.

(** The class file whose rows the class takes is imported, and
    [maxid] is the largest of 1 and the ids. *)
Lemma import_class_rows_returns import_files dir file classname cl header
    rows nodeids zs w (Q : World → Z → Prop) :
  files w !! (dir, file) = Some (header :: rows) →
  Forall (λ r, csv_row (CSV_FIELD_SIZE self) r = Return r) (header :: rows) →
  Forall2 (λ r nodeid, import_list cl header r = Return nodeid) rows nodeids →
  Forall2 (λ nodeid z, int nodeid = Return z) nodeids zs →
  (∀ w', ids w' = ids w → files w' = files w →
         calls w' = calls w
           ++ row_calls import_files dir classname cl header rows nodeids →
         Q w' (foldl Z.max 1%Z zs)) →
  returns (import_class_rows int self import_files dir file classname cl) w Q.
Proof.
  intros Hfile Hcsv Himp Hint HQ. apply Forall_cons in Hcsv as [Hhead Hcsv].
  unfold import_class_rows. apply returns_bind.
  eapply returns_eq; [unfold open_r; by rewrite Hfile|].
  apply returns_bind. unfold enumerate. cbn [length seq zip zip_with for_fold].
  apply returns_bind.
  eapply returns_eq.
  { unfold import_row. simpl. rewrite Hhead. reflexivity. }
  apply (import_rows_returns import_files dir classname cl header
           rows nodeids zs Hcsv Himp Hint 1 1%Z w).
  intros w' Hids Hfiles Hcalls.
  apply returns_bind. unfold print. apply returns_modify, returns_mret.
  by apply HQ.
Qed.

(** The class file with a row that the class refuses: the rows before
    it are imported, then the exception of [import_list] ends the
    block. *)
Lemma import_class_rows_raises import_files dir file classname cl header
    rows nodeids zs bad more e w :
  files w !! (dir, file) = Some (header :: rows ++ bad :: more) →
  Forall (λ r, csv_row (CSV_FIELD_SIZE self) r = Return r)
    (header :: rows ++ [bad]) →
  Forall2 (λ r nodeid, import_list cl header r = Return nodeid) rows nodeids →
  Forall2 (λ nodeid z, int nodeid = Return z) nodeids zs →
  import_list cl header bad = Raise e →
  raises (import_class_rows int self import_files dir file classname cl) w e
    (λ w', ids w' = ids w ∧ files w' = files w ∧
           calls w' = calls w
             ++ row_calls import_files dir classname cl header rows nodeids).
Proof.
  intros Hfile Hcsv Himp Hint Hbad.
  apply Forall_cons in Hcsv as [Hhead Hcsv].
  apply Forall_app in Hcsv as [Hcsv Hcsvbad].
  apply Forall_cons in Hcsvbad as [Hcsvbad _].
  unfold import_class_rows. apply raises_bind_r.
  eapply returns_eq; [unfold open_r; by rewrite Hfile|].
  apply raises_bind_l. unfold enumerate.
  cbn [length seq zip zip_with for_fold].
  apply raises_bind_r.
  eapply returns_eq.
  { unfold import_row. simpl. rewrite Hhead. reflexivity. }
  change (zip_with pair (seq 1 (length (rows ++ bad :: more)))
            (rows ++ bad :: more))
    with (zip (seq 1 (length (rows ++ bad :: more))) (rows ++ bad :: more)).
  rewrite enumerate_from_app.
  destruct (import_rows_returns import_files dir classname cl header
              rows nodeids zs Hcsv Himp Hint 1 1%Z w
              (λ w' st, st = (Some header, foldl Z.max 1%Z zs) ∧
                 ids w' = ids w ∧ files w' = files w ∧
                 calls w' = calls w
                   ++ row_calls import_files dir classname cl header rows
                        nodeids))
    as (w1 & st & Hrows & -> & Hids & Hfiles & Hcalls); [done|].
  destruct (import_row_raises import_files dir classname cl header
              (foldl Z.max 1%Z zs) (1 + length rows) bad e w1 Hcsvbad Hbad)
    as (w2 & Hrow & Hids2 & Hfiles2 & Hcalls2).
  exists w2. split; [|split_and!; congruence].
  rewrite for_fold_app, Hrows. cbn [length seq zip zip_with for_fold].
  unfold mbind at 1, IO_bind at 1. by rewrite Hrow.
Qed.

(** With the journal file in place the journal is imported and the
    counter is set. *)
Lemma import_class_journals_returns dir classname cl maxid journal w
    (Q : World → unit → Prop) :
  files w !! (dir, (classname ++ "-journals.csv")%string) = Some journal →
  Forall (λ r, csv_row (CSV_FIELD_SIZE self) r = Return r) journal →
  (∀ w', ids w' = <[classname := pretty (maxid + 1)%Z]> (ids w) →
         files w' = files w →
         calls w' = calls w ++ [ImportJournals classname journal] →
         Q w' tt) →
  returns (import_class_journals self dir classname cl maxid) w Q.
Proof.
  intros Hfile Hcsv HQ. unfold import_class_journals. apply returns_bind.
  eapply returns_eq; [unfold open_r; by rewrite Hfile|].
  rewrite (mapM_csv_row _ _ Hcsv). repeat returns_step. by apply HQ.
Qed.

(** Without the journal file [open] raises, and nothing else
    happens. *)
Lemma import_class_journals_raises dir classname cl maxid w :
  files w !! (dir, (classname ++ "-journals.csv")%string) = None →
  raises (import_class_journals self dir classname cl maxid) w
    (IOError (dir ++ "/" ++ (classname ++ "-journals.csv"))%string)
    (λ w', w' = w).
Proof.
  intros Hfile. unfold import_class_journals. apply raises_bind_l.
  exists w. split; [|done]. unfold open_r. by rewrite Hfile.
Qed.

(** [import_file] on the file of a known class. *)
Lemma import_file_class import_files dir file classname cl :
  splitext file = (classname, ".csv") →
  endswith classname "-journals" = false →
  getclass (classes self) classname = Some cl →
  import_file int self import_files dir file =
    (maxid ← import_class_rows int self import_files dir file classname cl;
     import_class_journals self dir classname cl maxid).
Proof.
  intros Hsplit Hends Hcl. unfold import_file, get_class.
  rewrite Hsplit, Hends, Hcl. by rewrite bool_decide_false by (by intros []).
Qed.
End import_facts.

Lemma foldl_Z_max (maxid zmax : Z) (zs : list Z) :
  zmax ∈ zs → (∀ z, z ∈ zs → (z ≤ zmax)%Z) →
  foldl Z.max maxid zs = Z.max maxid zmax.
Proof.
  intros Hin Hmax.
  assert (∀ m, m ≤ foldl Z.max m zs)%Z as Hge
    by (intros m; apply foldl_ge; lia).
  assert (zmax ≤ foldl Z.max maxid zs)%Z as Hge'.
  { apply (foldl_ge_elem Z.max (λ m x, Z.le_max_l m x) (λ z, z) maxid zs zmax);
      [lia|done]. }
  assert (foldl Z.max maxid zs ≤ Z.max maxid zmax)%Z as Hle.
  { clear Hin Hge Hge'. revert maxid.
    induction zs as [|z zs IH]; intros maxid; simpl; [lia|].
    etrans; [apply IH; intros; apply Hmax; by right|].
    specialize (Hmax z ltac:(by left)). lia. }
  specialize (Hge maxid). lia.
Qed.

(** C2, as the code has it.  When the rows of a class file and its
    journal file are read and imported without an exception, the id
    counter of the class is set to one more than the larger of 1 and
    the largest id among the imported rows; with an id of at least 1
    among them this is one more than the largest id. *)
Theorem import_file_sets_id_counter {Value : Type} (int : string → result Z)
    (self : AdminTool Value) (import_files : bool)
    (dir file classname : string) (cl : Class Value) (header : Row)
    (rows : list Row) (nodeids : list string) (zs : list Z)
    (journal : list Row) (w : World) :
  splitext file = (classname, ".csv") →
  endswith classname "-journals" = false →
  getclass (classes self) classname = Some cl →
  files w !! (dir, file) = Some (header :: rows) →
  Forall (λ r, csv_row (CSV_FIELD_SIZE self) r = Return r) (header :: rows) →
  Forall2 (λ r nodeid, import_list cl header r = Return nodeid) rows nodeids →
  Forall2 (λ nodeid z, int nodeid = Return z) nodeids zs →
  files w !! (dir, (classname ++ "-journals.csv")%string) = Some journal →
  Forall (λ r, csv_row (CSV_FIELD_SIZE self) r = Return r) journal →
  ∃ w',
    import_file int self import_files dir file w = (w', Return tt) ∧
    ids w' = <[classname := pretty (foldl Z.max 1 zs + 1)%Z]> (ids w) ∧
    ∀ zmax, zmax ∈ zs → (∀ z, z ∈ zs → (z ≤ zmax)%Z) →
      ids w' !! classname = Some (pretty (Z.max 1 zmax + 1)%Z) ∧
      ((1 ≤ zmax)%Z → ids w' !! classname = Some (pretty (zmax + 1)%Z)).
Proof.
  intros Hsplit Hends Hcl Hfile Hcsv Himp Hint Hjournal Hjcsv.
  rewrite (import_file_class int self import_files dir file classname cl
             Hsplit Hends Hcl).
  assert (returns
            (maxid ← import_class_rows int self import_files dir file classname cl;
             import_class_journals self dir classname cl maxid) w
            (λ w' _, ids w' = <[classname := pretty (foldl Z.max 1 zs + 1)%Z]> (ids w)))
    as (w' & [] & Hrun & Hids).
  { apply returns_bind.
    eapply import_class_rows_returns; [done..|].
    intros w1 Hids1 Hfiles1 _.
    eapply import_class_journals_returns; [by rewrite Hfiles1|done|].
    intros w' Hids' _ _. by rewrite Hids', Hids1. }
  exists w'. split_and!; [done..|].
  intros zmax Hin Hmax. rewrite Hids, lookup_insert_eq.
  rewrite (foldl_Z_max 1 zmax zs Hin Hmax). split; [done|].
  intros Hone. by rewrite Z.max_r.
Qed.

Lemma import_file_sets_id_counter_witness :
  ∃ w',
    import_file Examples.int Examples.import_tool true "in" "issue.csv"
      (Examples.directory
         [["id"; "title"; "status"; "is retired"];
          ["3"; "a"; "1"; "False"]; ["12"; "b"; "1"; "True"]] [] None)
    = (w', Return tt) ∧
    ids w' !! "issue" = Some "13".
Proof.
  destruct (import_file_sets_id_counter Examples.int Examples.import_tool true
              "in" "issue.csv" "issue" Examples.issue
              ["id"; "title"; "status"; "is retired"]
              [["3"; "a"; "1"; "False"]; ["12"; "b"; "1"; "True"]]
              ["3"; "12"] [3; 12]%Z []
              (Examples.directory
                 [["id"; "title"; "status"; "is retired"];
                  ["3"; "a"; "1"; "False"]; ["12"; "b"; "1"; "True"]] [] None))
    as (w' & Hrun & _ & Hmax);
    [reflexivity|reflexivity|reflexivity|reflexivity
    |by repeat constructor|by repeat constructor|by repeat constructor
    |reflexivity|constructor|].
  exists w'. split; [done|].
  apply (Hmax 12%Z); [by repeat constructor| |lia].
  intros z Hz. apply elem_of_cons in Hz as [->|Hz]; [lia|].
  apply elem_of_cons in Hz as [->|Hz]; [lia|]. by apply elem_of_nil in Hz.
Defined.

(** C2 fails as stated, in two ways.  After the import of a file whose
    only row has the id 0 the counter is 2, not 1.  And when the journal
    file of the class is missing, the rows are processed and the counter
    is not set at all. *)
Lemma import_id_counter_counterexample :
  let zero := (do_import Examples.int Examples.listing Examples.import_tool
                 ["in"] true
                 (Examples.directory [["id"; "title"; "status"; "is retired"]]
                    [["id"; "name"; "is retired"]; ["0"; "open"; "False"]]
                    (Some []))) in
  let missing := (do_import Examples.int Examples.listing Examples.import_tool
                    ["in"] true
                    (Examples.directory [["id"; "title"; "status"; "is retired"]]
                       [["id"; "name"; "is retired"]; ["7"; "open"; "False"]]
                       None)) in
  import_list Examples.status ["id"; "name"; "is retired"]
    ["0"; "open"; "False"] = Return "0" ∧
  Examples.int "0" = Return 0%Z ∧
  zero.2 = Return 0%Z ∧
  calls zero.1 = [ImportJournals "issue" [];
                  ImportList "status" ["id"; "name"; "is retired"]
                    ["0"; "open"; "False"];
                  ImportJournals "status" []] ∧
  ids zero.1 !! "status" = Some "2" ∧
  ids zero.1 !! "status" ≠ Some (pretty (0 + 1)%Z) ∧
  calls missing.1 = [ImportJournals "issue" [];
                     ImportList "status" ["id"; "name"; "is retired"]
                       ["7"; "open"; "False"]] ∧
  ids missing.1 !! "status" = None.
Proof. vm_compute. by split_and!. Qed.

(** C6, as the code has it.  When the journal file of a class is not in
    the directory, the rows of the class are imported first and then
    [open] raises: the import of the class ends with that exception,
    the journal is not skipped, and the id counter of the class is not
    set. *)
Theorem import_file_missing_journal_raises {Value : Type}
    (int : string → result Z) (self : AdminTool Value) (import_files : bool)
    (dir file classname : string) (cl : Class Value) (header : Row)
    (rows : list Row) (nodeids : list string) (zs : list Z) (w : World) :
  splitext file = (classname, ".csv") →
  endswith classname "-journals" = false →
  getclass (classes self) classname = Some cl →
  files w !! (dir, file) = Some (header :: rows) →
  Forall (λ r, csv_row (CSV_FIELD_SIZE self) r = Return r) (header :: rows) →
  Forall2 (λ r nodeid, import_list cl header r = Return nodeid) rows nodeids →
  Forall2 (λ nodeid z, int nodeid = Return z) nodeids zs →
  files w !! (dir, (classname ++ "-journals.csv")%string) = None →
  ∃ w',
    import_file int self import_files dir file w
      = (w', Raise (IOError (dir ++ "/" ++ (classname ++ "-journals.csv"))%string)) ∧
    ids w' = ids w ∧
    calls w' = calls w
      ++ row_calls import_files dir classname cl header rows nodeids.
Proof.
  intros Hsplit Hends Hcl Hfile Hcsv Himp Hint Hjournal.
  rewrite (import_file_class int self import_files dir file classname cl
             Hsplit Hends Hcl).
  assert (raises
            (maxid ← import_class_rows int self import_files dir file classname cl;
             import_class_journals self dir classname cl maxid) w
            (IOError (dir ++ "/" ++ (classname ++ "-journals.csv"))%string)
            (λ w', ids w' = ids w ∧
               calls w' = calls w
                 ++ row_calls import_files dir classname cl header rows nodeids))
    as (w' & Hrun & Hids & Hcalls).
  { apply raises_bind_r.
    eapply import_class_rows_returns; [done..|].
    intros w1 Hids1 Hfiles1 Hcalls1.
    destruct (import_class_journals_raises self dir classname cl
                (foldl Z.max 1%Z zs) w1) as (w' & Hrun & ->).
    { by rewrite Hfiles1. }
    by exists w1. }
  by exists w'.
Qed.

Lemma import_file_missing_journal_raises_witness :
  ∃ w',
    import_file Examples.int Examples.import_tool true "in" "status.csv"
      (Examples.directory [] [["id"; "name"; "is retired"]; ["4"; "open"; "False"]]
         None)
    = (w', Raise (IOError "in/status-journals.csv")) ∧
    ids w' = ∅ ∧
    calls w' = [ImportList "status" ["id"; "name"; "is retired"]
                  ["4"; "open"; "False"]].
Proof.
  apply (import_file_missing_journal_raises Examples.int Examples.import_tool
           true "in" "status.csv" "status" Examples.status
           ["id"; "name"; "is retired"] [["4"; "open"; "False"]] ["4"] [4%Z]
           (Examples.directory []
              [["id"; "name"; "is retired"]; ["4"; "open"; "False"]] None));
    [reflexivity|reflexivity|reflexivity|reflexivity
    |by repeat constructor|by repeat constructor|by repeat constructor
    |reflexivity].
Defined.

(** C6 fails as stated: without [status-journals.csv] the import ends
    with the exception of [open], after the row of [status] has been
    imported and before its counter is set. *)
Lemma import_missing_journal_counterexample :
  let w := Examples.directory [["id"; "title"; "status"; "is retired"]]
             [["id"; "name"; "is retired"]; ["4"; "open"; "False"]] None in
  let run := do_import Examples.int Examples.listing Examples.import_tool
               ["in"] true w in
  files w !! ("in", "status-journals.csv") = None ∧
  run.2 = Raise (IOError "in/status-journals.csv") ∧
  calls run.1 = [ImportJournals "issue" [];
                 ImportList "status" ["id"; "name"; "is retired"]
                   ["4"; "open"; "False"]] ∧
  ids run.1 !! "status" = None ∧
  db_uncommitted run.1 = false.
Proof. vm_compute. by split_and!. Qed.

(** C5, as the code has it.  [do_import] has no handler around the
    import of a file.  When a class refuses a row of its file, because
    of its header or of the row itself, the exception of [import_list]
    leaves [do_import]: the rows before the refused one stay imported,
    the counter of the class is not set, and the files that the
    directory lists after this one are not read. *)
Theorem do_import_stops_at_refused_row {Value : Type}
    (int : string → result Z) (listdir : string → list string)
    (self : AdminTool Value) (args : list string) (import_files : bool)
    (dir : string) (pre post : list string) (file classname : string)
    (cl : Class Value) (header : Row) (rows : list Row)
    (nodeids : list string) (zs : list Z) (bad : Row) (more : list Row)
    (e : Exn) (w w1 : World) :
  head args = Some dir →
  listdir dir = pre ++ file :: post →
  for_each (import_file int self import_files dir) pre w = (w1, Return tt) →
  splitext file = (classname, ".csv") →
  endswith classname "-journals" = false →
  getclass (classes self) classname = Some cl →
  files w1 !! (dir, file) = Some (header :: rows ++ bad :: more) →
  Forall (λ r, csv_row (CSV_FIELD_SIZE self) r = Return r)
    (header :: rows ++ [bad]) →
  Forall2 (λ r nodeid, import_list cl header r = Return nodeid) rows nodeids →
  Forall2 (λ nodeid z, int nodeid = Return z) nodeids zs →
  import_list cl header bad = Raise e →
  ∃ w2,
    do_import int listdir self args import_files w = (w2, Raise e) ∧
    ids w2 = ids w1 ∧
    files w2 = files w1 ∧
    calls w2 = calls w1
      ++ row_calls import_files dir classname cl header rows nodeids.
Proof.
  intros Hargs Hlist Hpre Hsplit Hends Hcl Hfile Hcsv Himp Hint Hbad.
  destruct (import_class_rows_raises int self import_files dir file classname
              cl header rows nodeids zs bad more e w1 Hfile Hcsv Himp Hint Hbad)
    as (w2 & Hrows & Hids & Hfiles & Hcalls).
  exists w2. split_and!; [|done..].
  unfold do_import. destruct args as [|arg args]; [done|].
  injection Hargs as ->. rewrite decide_False by (simpl; lia). simpl.
  rewrite Hlist. unfold mbind at 1, IO_bind at 1. unfold for_each in *.
  rewrite (for_fold_Raise _ tt tt pre post file w w1 w2 e Hpre); [done|].
  rewrite (import_file_class int self import_files dir file classname cl
             Hsplit Hends Hcl).
  unfold mbind, IO_bind. by rewrite Hrows.
Qed.

Lemma do_import_stops_at_refused_row_witness :
  ∃ w2,
    do_import Examples.int Examples.listing Examples.import_tool ["in"] true
      (Examples.directory
         [["id"; "title"; "status"; "is retired"];
          ["1"; "a"; "1"; "False"]; ["2"; "b"; "1"]; ["3"; "c"; "1"; "False"]]
         [["id"; "name"; "is retired"]; ["1"; "open"; "False"]] (Some []))
    = (w2, Raise (ValueError "row")) ∧
    ids w2 = ∅ ∧
    calls w2 = [ImportList "issue" ["id"; "title"; "status"; "is retired"]
                  ["1"; "a"; "1"; "False"]].
Proof.
  set (w := Examples.directory
              [["id"; "title"; "status"; "is retired"];
               ["1"; "a"; "1"; "False"]; ["2"; "b"; "1"]; ["3"; "c"; "1"; "False"]]
              [["id"; "name"; "is retired"]; ["1"; "open"; "False"]] (Some [])).
  destruct (do_import_stops_at_refused_row Examples.int Examples.listing
              Examples.import_tool ["in"] true "in" []
              ["issue-journals.csv"; "status.csv"; "status-journals.csv"]
              "issue.csv" "issue" Examples.issue
              ["id"; "title"; "status"; "is retired"]
              [["1"; "a"; "1"; "False"]] ["1"] [1%Z] ["2"; "b"; "1"]
              [["3"; "c"; "1"; "False"]] (ValueError "row") w w)
    as (w2 & Hrun & Hids & _ & Hcalls);
    [reflexivity|reflexivity|reflexivity|reflexivity|reflexivity|reflexivity
    |reflexivity|by repeat constructor|by repeat constructor
    |by repeat constructor|reflexivity|].
  by exists w2.
Defined.

(** C5 fails as stated: the header of [issue.csv] is not the one of the
    class, the import ends with the exception raised for it, and
    [status.csv], which is well formed and comes later in the
    directory, is not imported. *)
Lemma import_batch_continues_counterexample :
  let w := Examples.directory
             [["id"; "title"; "priority"; "is retired"]; ["1"; "a"; "2"; "False"]]
             [["id"; "name"; "is retired"]; ["4"; "open"; "False"]] (Some []) in
  let run := do_import Examples.int Examples.listing Examples.import_tool
               ["in"] true w in
  import_list Examples.status ["id"; "name"; "is retired"]
    ["4"; "open"; "False"] = Return "4" ∧
  run.2 = Raise (KeyError "header") ∧
  calls run.1 = [] ∧
  ids run.1 !! "status" = None.
Proof. vm_compute. by split_and!. Qed.

(** * Further properties *)

(** From here on [≤] and [<] without a mark are those of [nat]. *)
Open Scope nat_scope.

(** ** The command table *)

(** X1.  The command lookup of [run_command] never raises: [functions[0]]
    is never taken from an empty list and [self.data[ki]] never misses.
    What it selects is registered under a name that starts with the
    typed text; what it reports as ambiguous are at least two such
    names; and it reports an unknown command only when no registered
    name starts with the typed text. *)
Theorem run_command_lookup_sound {V : Type} (commands : gmap string V)
    (command : string) :
  ∃ outcome,
    run_command_lookup commands command = Return outcome ∧
    match outcome with
    | Selected name function =>
        commands !! name = Some function ∧ startswith name command = true
    | MultipleCommands typed names =>
        typed = command ∧ (2 ≤ length names)%nat ∧
        ∀ name, name ∈ names →
          is_Some (commands !! name) ∧ startswith name command = true
    | UnknownCommand typed =>
        typed = command ∧
        ∀ name, is_Some (commands !! name) → startswith name command = false
    end.
Proof.
  unfold run_command_lookup, CommandDict.get.
  destruct (commands !! command) as [function|] eqn:Hcmd.
  { exists (Selected command function). simpl.
    split_and!; [done..|apply startswith_refl]. }
  destruct (get_loop_filter commands command
              (sorted String.ltb (CommandDict.keys commands)) [])
    as (found & -> & Hfst & Hval).
  { intros ki. by rewrite elem_of_sorted_keys. }
  assert (∀ name, name ∈ found.*1 →
            is_Some (commands !! name) ∧ startswith name command = true)
    as Hfound.
  { intros name. rewrite Hfst, list_elem_of_filter, elem_of_sorted_keys.
    rewrite Is_true_true. tauto. }
  simpl. destruct found as [|[name function] [|kv found]]; simpl in *.
  - exists (UnknownCommand command). split_and!; [done..|].
    intros name Hname. destruct (startswith name command) eqn:Hstart; [|done].
    assert (name ∈ filter (λ ki, startswith ki command)
              (sorted String.ltb (CommandDict.keys commands))) as Hin.
    { apply list_elem_of_filter. rewrite elem_of_sorted_keys, Hstart. done. }
    rewrite <- Hfst in Hin. by apply elem_of_nil in Hin.
  - exists (Selected name function). split_and!; [done| |].
    + apply Hval. by left.
    + apply Hfound. by left.
  - exists (MultipleCommands command (name :: kv.1 :: found.*1)).
    split_and!; [done..|simpl; lia|done].
Qed.

(** X2.  [CommandDict.get] without a default raises [KeyError] for the
    key exactly when no registered name starts with the key; otherwise
    it returns a list that is not empty and holds only entries of the
    dictionary. *)
Theorem get_marker_KeyError_iff {V : Type} (data : gmap string V)
    (key : string) :
  (CommandDict.get (D := unit) data key CommandDict._marker
     = Raise (KeyError key) ↔
   ∀ name, is_Some (data !! name) → startswith name key = false) ∧
  ∀ entries,
    CommandDict.get (D := unit) data key CommandDict._marker = Return entries →
    entries ≠ [] ∧
    ∀ name v, (name, v) ∈ entries →
      data !! name = Some v ∧ startswith name key = true.
Proof.
  unfold CommandDict.get.
  destruct (data !! key) as [v|] eqn:Hkey.
  { split.
    - split; [done|]. intros Hnone.
      specialize (Hnone key (mk_is_Some _ _ Hkey)).
      by rewrite startswith_refl in Hnone.
    - intros entries [= <-]. split; [done|].
      intros name v' [[= -> ->]|[]%elem_of_nil]%elem_of_cons.
      split; [done|apply startswith_refl]. }
  destruct (get_loop_filter data key
              (sorted String.ltb (CommandDict.keys data)) [])
    as (found & -> & Hfst & Hval).
  { intros ki. by rewrite elem_of_sorted_keys. }
  assert (∀ name, name ∈ found.*1 ↔
            is_Some (data !! name) ∧ startswith name key = true) as Hfound.
  { intros name. rewrite Hfst, list_elem_of_filter, elem_of_sorted_keys.
    rewrite Is_true_true. tauto. }
  simpl. split.
  - destruct found as [|[name v] found]; simpl.
    + split; [|done]. intros _ name Hname.
      destruct (startswith name key) eqn:Hstart; [|done].
      assert (name ∈ ([] : list (string * V)).*1) as Hin by by apply Hfound.
      by apply elem_of_nil in Hin.
    + split; [done|]. intros Hnone.
      assert (startswith name key = true) as Hstart
        by (apply (Hfound name); by left).
      rewrite Hnone in Hstart; [done|]. apply (Hfound name). by left.
  - intros entries Hentries.
    destruct found as [|[name v] found]; [done|]. injection Hentries as <-.
    split; [done|]. intros name' v' Hin. split; [by apply Hval|].
    apply (Hfound name'). apply list_elem_of_fmap. by exists (name', v').
Qed.

Lemma get_marker_KeyError_iff_witness :
  CommandDict.get (V := nat) (D := unit)
    (<["list" := 1]> (<["login" := 2]> ∅)) "x" CommandDict._marker
  = Raise (KeyError "x").
Proof.
  apply (proj1 (get_marker_KeyError_iff (<["list" := 1]> (<["login" := 2]> ∅)) "x")).
  intros name [v Hv].
  destruct (decide (name = "list")) as [->|]; [done|].
  destruct (decide (name = "login")) as [->|]; [done|].
  by rewrite !lookup_insert_ne in Hv.
Defined.

(** ** More on props_from_args *)

(** The loop started with a dictionary gives what it gives started
    with the empty one, laid over that dictionary. *)
Lemma props_from_args_loop_union (props : gmap string (option string))
    (args : list string) :
  props_from_args_loop props args =
    props' ← props_from_args_loop ∅ args; Return (props' ∪ props).
Proof.
  revert props. induction args as [|arg args IH]; intros props.
  - simpl. by rewrite (left_id_L ∅ (∪)).
  - rewrite !props_from_args_loop_cons.
    destruct (cut "=" arg) as [[key value]|]; [|done].
    rewrite IH. rewrite (IH (<[key:=_]> ∅)).
    destruct (props_from_args_loop ∅ args) as [e|props']; [done|].
    cbn [mbind result_bind]. f_equal.
    rewrite <- (assoc_L (∪)). f_equal.
    by rewrite insert_empty, <- insert_union_singleton_l.
Qed.

(** X3.  Parsing two argument lists one after the other is parsing
    their concatenation: the result for [args1 ++ args2] is the result
    for [args2] laid over the result for [args1], so that a property
    named in both takes its value from [args2]; a usage failure in
    [args1] comes first. *)
Theorem props_from_args_app (args1 args2 : list string) :
  props_from_args (args1 ++ args2) =
    props1 ← props_from_args args1;
    props2 ← props_from_args args2;
    Return (props2 ∪ props1).
Proof.
  unfold props_from_args. rewrite props_from_args_loop_app.
  destruct (props_from_args_loop ∅ args1) as [e|props1]; [done|].
  cbn [mbind result_bind]. apply props_from_args_loop_union.
Qed.

Lemma props_from_args_loop_values (props props' : gmap string (option string))
    (args : list string) :
  props_from_args_loop props args = Return props' →
  (∀ name v, props !! name = Some v →
             contains "=" name = false ∧ v ≠ Some "") →
  ∀ name v, props' !! name = Some v →
            contains "=" name = false ∧ v ≠ Some "".
Proof.
  revert props. induction args as [|arg args IH]; intros props Hloop Hprops.
  - by injection Hloop as <-.
  - rewrite props_from_args_loop_cons in Hloop.
    destruct (cut "=" arg) as [[key value]|] eqn:Hcut; [|done].
    apply (IH _ Hloop). intros name v.
    destruct (decide (key = name)) as [->|Hne].
    + rewrite lookup_insert_eq. intros [= <-].
      apply cut_Some in Hcut as [_ Hname]. split; [done|].
      case_decide; [done|]. by intros [= ->].
    + rewrite lookup_insert_ne by done. apply Hprops.
Qed.

Lemma props_from_args_loop_size (props props' : gmap string (option string))
    (args : list string) :
  props_from_args_loop props args = Return props' →
  size props' ≤ size props + length args.
Proof.
  revert props. induction args as [|arg args IH]; intros props Hloop.
  - injection Hloop as <-. simpl. lia.
  - rewrite props_from_args_loop_cons in Hloop.
    destruct (cut "=" arg) as [[key value]|] eqn:Hcut; [|done].
    apply IH in Hloop. simpl.
    etrans; [exact Hloop|].
    destruct (props !! key) as [old|] eqn:Hold.
    + rewrite map_size_insert_Some by done. lia.
    + rewrite map_size_insert_None by done. lia.
Qed.

(** X4.  In a dictionary that [props_from_args] returns no property
    name contains an [=], no value is the empty text (an empty text is
    stored as [None]), and there are at most as many properties as
    arguments. *)
Theorem props_from_args_well_formed (args : list string)
    (props : gmap string (option string)) :
  props_from_args args = Return props →
  (∀ name v, props !! name = Some v →
             contains "=" name = false ∧ v ≠ Some "") ∧
  size props ≤ length args.
Proof.
  intros Hprops. split.
  - apply (props_from_args_loop_values ∅ props args Hprops).
    intros name v Hv. by rewrite lookup_empty in Hv.
  - apply props_from_args_loop_size in Hprops.
    by rewrite map_size_empty in Hprops.
Qed.

Lemma props_from_args_well_formed_witness :
  let props : gmap string (option string) :=
    <["a" := Some "1=2"]> (<["b" := None]> ∅) in
  (∀ name v, props !! name = Some v →
             contains "=" name = false ∧ v ≠ Some "") ∧
  size props ≤ 3.
Proof.
  apply (props_from_args_well_formed ["b="; "a=0"; "a=1=2"]).
  vm_compute. reflexivity.
Defined.

(** ** More on the transitive property walk *)

(** X5.  A hop that names a link or multilink to a known class moves
    the walk to that class and binds [curclassname] to its name; the
    hops that follow are looked up there.  This holds for the last hop
    as well: a dotted path that ends in a link resolves to the class
    the link points to, with the name of the link as the property. *)
Theorem do_filter_path_follows_link {Value : Type}
    (classes : Classes Value) (cl : Class Value) (propname : string)
    (curclassname0 : option string) (pre post : list string) (pn : string)
    (st : Walk Value) (prop : PropertyKind) (name : string)
    (target : Class Value) :
  contains "." propname = true →
  split "." propname = pre ++ pn :: post →
  do_filter_walk classes propname pre
    {| curclass := cl; lastprop := propname; curclassname := curclassname0 |}
    = Return st →
  getprops (curclass st) !! pn = Some prop →
  prop_classname prop = Some name →
  getclass classes name = Some target →
  do_filter_path classes cl propname curclassname0 =
    do_filter_walk classes propname post
      {| curclass := target; lastprop := pn; curclassname := Some name |} ∧
  (post = [] →
   do_filter_path classes cl propname curclassname0 =
     Return {| curclass := target; lastprop := pn; curclassname := Some name |}).
Proof.
  intros Hdot Hsplit Hpre Hpn Hprop Htarget.
  assert (do_filter_path classes cl propname curclassname0 =
            do_filter_walk classes propname post
              {| curclass := target; lastprop := pn;
                 curclassname := Some name |}) as Hpath.
  { unfold do_filter_path.
    rewrite Hdot, Hsplit, do_filter_walk_app, Hpre.
    cbn [mbind result_bind]. simpl. rewrite Hpn, Hprop.
    unfold get_class. by rewrite Htarget. }
  split; [done|]. intros ->. by rewrite Hpath.
Qed.

Lemma do_filter_path_follows_link_witness :
  do_filter_path Examples.tracker Examples.issue "status.name" None =
    do_filter_walk Examples.tracker "status.name" ["name"]
      {| curclass := Examples.status; lastprop := "status";
         curclassname := Some "status" |} ∧
  do_filter_path Examples.tracker Examples.issue "title.status" None =
    Return {| curclass := Examples.status; lastprop := "status";
              curclassname := Some "status" |}.
Proof.
  split.
  - apply (do_filter_path_follows_link Examples.tracker Examples.issue
             "status.name" None [] ["name"] "status"
             {| curclass := Examples.issue; lastprop := "status.name";
                curclassname := None |} (Link "status") "status"
             Examples.status); reflexivity.
  - apply (do_filter_path_follows_link Examples.tracker Examples.issue
             "title.status" None ["title"] [] "status"
             {| curclass := Examples.issue; lastprop := "title";
                curclassname := None |} (Link "status") "status"
             Examples.status); reflexivity.
Defined.

(** X6.  A hop that is not a property of the current class ends the
    walk.  After a link has been followed the failure is the
    [UsageError] that names the class of that link, the hop and the
    path.  Before any link has been followed [curclassname] is unbound,
    the text of the error cannot be formatted, and the walk ends with
    [KeyError] for [curclassname] instead. *)
Theorem do_filter_path_missing_hop {Value : Type}
    (classes : Classes Value) (cl : Class Value) (propname : string)
    (curclassname0 : option string) (pre post : list string) (pn : string)
    (st : Walk Value) :
  contains "." propname = true →
  split "." propname = pre ++ pn :: post →
  do_filter_walk classes propname pre
    {| curclass := cl; lastprop := propname; curclassname := curclassname0 |}
    = Return st →
  getprops (curclass st) !! pn = None →
  do_filter_path classes cl propname curclassname0 =
    match curclassname st with
    | Some name => Raise (UsageError (NoProperty name pn propname))
    | None => Raise (KeyError "curclassname")
    end.
Proof.
  intros Hdot Hsplit Hpre Hpn. unfold do_filter_path.
  rewrite Hdot, Hsplit, do_filter_walk_app, Hpre.
  cbn [mbind result_bind]. simpl. rewrite Hpn. by destruct (curclassname st).
Qed.

Lemma do_filter_path_missing_hop_witness :
  do_filter_path Examples.tracker Examples.issue "colour.name" None =
    Raise (KeyError "curclassname") ∧
  do_filter_path Examples.tracker Examples.issue "status.colour" None =
    Raise (UsageError (NoProperty "status" "colour" "status.colour")).
Proof.
  split.
  - apply (do_filter_path_missing_hop Examples.tracker Examples.issue
             "colour.name" None [] ["name"] "colour"
             {| curclass := Examples.issue; lastprop := "colour.name";
                curclassname := None |}); reflexivity.
  - apply (do_filter_path_missing_hop Examples.tracker Examples.issue
             "status.colour" None ["status"] [] "colour"
             {| curclass := Examples.status; lastprop := "status";
                curclassname := Some "status" |}); reflexivity.
Defined.

(** X7.  The resolution of a path fails in three ways only: with the
    [UsageError] for a hop that is not a property, with the
    [UsageError] for a link to a class that does not exist, and with the
    [KeyError] for [curclassname].  A path without a dot never fails. *)
Theorem do_filter_path_failures {Value : Type}
    (classes : Classes Value) (cl : Class Value) (propname : string)
    (curclassname0 : option string) :
  (∀ e, do_filter_path classes cl propname curclassname0 = Raise e →
     contains "." propname = true ∧
     ((∃ name pn, e = UsageError (NoProperty name pn propname)) ∨
      (∃ name, e = UsageError (NoSuchClass name) ∧ getclass classes name = None) ∨
      e = KeyError "curclassname")) ∧
  (contains "." propname = false →
   do_filter_path classes cl propname curclassname0 =
     Return {| curclass := cl; lastprop := propname;
               curclassname := curclassname0 |}).
Proof.
  unfold do_filter_path. split.
  - intros e. destruct (contains "." propname); [|done]. intros Hwalk.
    split; [done|]. revert Hwalk.
    generalize {| curclass := cl; lastprop := propname;
                  curclassname := curclassname0 |}.
    induction (split "." propname) as [|pn pns IH]; intros st; simpl; [done|].
    destruct (getprops (curclass st) !! pn) as [prop|].
    + destruct (prop_classname prop) as [name|]; [|apply IH].
      unfold get_class.
      destruct (getclass classes name) as [target|] eqn:Htarget; simpl.
      * apply IH.
      * intros [= <-]. right. left. by exists name.
    + destruct (curclassname st) as [name|]; intros [= <-].
      * left. by exists name, pn.
      * by right; right.
  - by intros ->.
Qed.

Lemma do_filter_path_failures_witness :
  do_filter_path Examples.tracker Examples.issue "status" (Some "user") =
    Return {| curclass := Examples.issue; lastprop := "status";
              curclassname := Some "user" |}.
Proof.
  apply (proj2 (do_filter_path_failures Examples.tracker Examples.issue
                  "status" (Some "user"))).
  reflexivity.
Defined.

(** ** What export and import leave alone *)

Section preserves_facts.
Context (R : World → World → Prop).
Hypothesis R_refl : ∀ w, R w w.
Hypothesis R_trans : ∀ w1 w2 w3, R w1 w2 → R w2 w3 → R w1 w3.

Lemma preserves_mret {A : Type} (a : A) : preserves R (mret a).
Proof. intros w. apply R_refl. Qed.

Lemma preserves_raise {A : Type} (e : Exn) : preserves R (raise (A := A) e).
Proof. intros w. apply R_refl. Qed.

Lemma preserves_lift {A : Type} (r : result A) : preserves R (lift r).
Proof. intros w. apply R_refl. Qed.

Lemma preserves_open_r (path : string * string) : preserves R (open_r path).
Proof. intros w. unfold open_r. destruct (files w !! path); apply R_refl. Qed.

Lemma preserves_modify (f : World → World) :
  (∀ w, R w (f w)) → preserves R (modify f).
Proof. intros Hf w. apply Hf. Qed.

Lemma preserves_bind {A B : Type} (m : IO A) (k : A → IO B) :
  preserves R m → (∀ a, preserves R (k a)) → preserves R (m ≫= k).
Proof.
  intros Hm Hk w. unfold mbind, IO_bind. specialize (Hm w).
  destruct (m w) as [w1 [e|a]]; [done|].
  eapply R_trans; [exact Hm|apply Hk].
Qed.

Lemma preserves_when (c : bool) (m : IO unit) :
  preserves R m → preserves R (when c m).
Proof. intros Hm. destruct c; [done|]. apply preserves_mret. Qed.

Lemma preserves_for_fold {A B : Type} (body : B → A → IO B) (acc : B)
    (l : list A) :
  (∀ acc x, preserves R (body acc x)) → preserves R (for_fold body acc l).
Proof.
  intros Hbody. revert acc. induction l as [|x l IH]; intros acc; simpl.
  - apply preserves_mret.
  - apply preserves_bind; [apply Hbody|intros acc'; apply IH].
Qed.
End preserves_facts.

Lemma db_untouched_refl (w : World) : db_untouched w w.
Proof. done. Qed.

Lemma db_untouched_trans (w1 w2 w3 : World) :
  db_untouched w1 w2 → db_untouched w2 w3 → db_untouched w1 w3.
Proof. intros [??] [??]. split; congruence. Qed.

Lemma files_untouched_refl (w : World) : files_untouched w w.
Proof. done. Qed.

Lemma files_untouched_trans (w1 w2 w3 : World) :
  files_untouched w1 w2 → files_untouched w2 w3 → files_untouched w1 w3.
Proof. intros [??] [??]. split; congruence. Qed.

Lemma calls_grow_refl (P : Call → Prop) (w : World) : calls_grow P w w.
Proof. exists []. by rewrite app_nil_r. Qed.

Lemma calls_grow_trans (P : Call → Prop) (w1 w2 w3 : World) :
  calls_grow P w1 w2 → calls_grow P w2 w3 → calls_grow P w1 w3.
Proof.
  intros (new1 & H1 & HP1) (new2 & H2 & HP2). exists (new1 ++ new2).
  split; [by rewrite H2, H1, app_assoc|by apply Forall_app].
Qed.

Lemma export_leaves_refl (export_files : bool) (w : World) :
  export_leaves export_files w w.
Proof. split; [done|apply calls_grow_refl]. Qed.

Lemma export_leaves_trans (export_files : bool) (w1 w2 w3 : World) :
  export_leaves export_files w1 w2 → export_leaves export_files w2 w3 →
  export_leaves export_files w1 w3.
Proof.
  intros [??] [??].
  split; [by eapply db_untouched_trans|by eapply calls_grow_trans].
Qed.

Lemma export_leaves_same (export_files : bool) (w w' : World) :
  ids w' = ids w → db_uncommitted w' = db_uncommitted w → calls w' = calls w →
  export_leaves export_files w w'.
Proof.
  intros Hids Hflag Hcalls. split; [done|].
  exists []. by rewrite app_nil_r.
Qed.

Lemma import_leaves_refl (import_files : bool) (w : World) :
  import_leaves import_files w w.
Proof. split_and!; [done..|apply calls_grow_refl]. Qed.

Lemma import_leaves_trans (import_files : bool) (w1 w2 w3 : World) :
  import_leaves import_files w1 w2 → import_leaves import_files w2 w3 →
  import_leaves import_files w1 w3.
Proof.
  intros (? & ? & ?) (? & ? & ?).
  split_and!;
    [by eapply files_untouched_trans|congruence|by eapply calls_grow_trans].
Qed.

(** One step of a proof that a command preserves a relation. *)
Ltac preserves_step Hrefl Htrans :=
  first
    [ apply (preserves_bind _ Htrans); [|intros ?]
    | apply (preserves_mret _ Hrefl)
    | apply (preserves_raise _ Hrefl)
    | apply (preserves_lift _ Hrefl)
    | apply (preserves_open_r _ Hrefl)
    | apply (preserves_when _ Hrefl)
    | apply (preserves_for_fold _ Hrefl Htrans); intros ? ?
    | progress unfold for_each, print, call, writerow, open_w, makedirs, setid,
        set_uncommitted
    | apply preserves_modify; intros ? ].

Section export_leaves_facts.
Context {Value : Type}.
Variable repr_export : Value → string.
Variable self : AdminTool Value.

Lemma export_node_leaves export_files dir classname (cl : Class Value)
    propnames max_len nodeid :
  preserves (export_leaves export_files)
    (export_node repr_export self export_files dir classname cl propnames
       max_len nodeid).
Proof.
  pose proof (export_leaves_refl export_files) as Hrefl.
  pose proof (export_leaves_trans export_files) as Htrans.
  unfold export_node.
  apply (preserves_bind _ Htrans); [|intros _].
  { repeat preserves_step Hrefl Htrans. by apply export_leaves_same. }
  case_decide; [apply (preserves_raise _ Hrefl)|].
  apply (preserves_bind _ Htrans); [|intros _].
  { repeat preserves_step Hrefl Htrans. by apply export_leaves_same. }
  apply (preserves_bind _ Htrans); [|intros _; apply (preserves_mret _ Hrefl)].
  destruct export_files; simpl; [|apply (preserves_mret _ Hrefl)].
  destruct (has_export_files cl); simpl; [|apply (preserves_mret _ Hrefl)].
  unfold call. apply preserves_modify. intros w. split; [done|]. simpl.
  exists [ExportFiles classname dir nodeid]. split; [done|].
  constructor; [|done]. split; [done|]. by eauto.
Qed.

Lemma export_class_leaves export_files dir max_len classname :
  preserves (export_leaves export_files)
    (export_class repr_export self export_files dir max_len classname).
Proof.
  pose proof (export_leaves_refl export_files) as Hrefl.
  pose proof (export_leaves_trans export_files) as Htrans.
  unfold export_class.
  apply (preserves_bind _ Htrans); [apply (preserves_lift _ Hrefl)|intros cl].
  apply (preserves_bind _ Htrans); [|intros _].
  { repeat preserves_step Hrefl Htrans. by apply export_leaves_same. }
  apply (preserves_bind _ Htrans); [|intros _].
  { repeat preserves_step Hrefl Htrans. by apply export_leaves_same. }
  apply (preserves_bind _ Htrans); [|intros _].
  { repeat preserves_step Hrefl Htrans. by apply export_leaves_same. }
  apply (preserves_bind _ Htrans); [|intros max_len'].
  { apply (preserves_for_fold _ Hrefl Htrans). intros acc nodeid.
    apply export_node_leaves. }
  repeat preserves_step Hrefl Htrans; by apply export_leaves_same.
Qed.

Lemma do_export_leaves args export_files :
  preserves (export_leaves export_files)
    (do_export repr_export self args export_files).
Proof.
  pose proof (export_leaves_refl export_files) as Hrefl.
  pose proof (export_leaves_trans export_files) as Htrans.
  unfold do_export. case_decide; [apply (preserves_raise _ Hrefl)|].
  apply (preserves_bind _ Htrans); [|intros _].
  { repeat preserves_step Hrefl Htrans. by apply export_leaves_same. }
  apply (preserves_bind _ Htrans); [|intros max_len].
  { apply (preserves_for_fold _ Hrefl Htrans). intros acc classname.
    apply export_class_leaves. }
  repeat preserves_step Hrefl Htrans; by apply export_leaves_same.
Qed.
End export_leaves_facts.

(** X8.  An export, however it ends, leaves the id counters and the
    flag for uncommitted changes as they were.  The only calls it makes
    to the classes that could change anything are calls of
    [export_files], and [do_exporttables] makes none at all. *)
Theorem do_export_leaves_database {Value : Type}
    (repr_export : Value → string) (self : AdminTool Value)
    (args : list string) (export_files : bool) (w : World) :
  let w' := (do_export repr_export self args export_files w).1 in
  ids w' = ids w ∧
  db_uncommitted w' = db_uncommitted w ∧
  (∃ new,
     calls w' = calls w ++ new ∧
     Forall (λ c, ∃ classname dir nodeid, c = ExportFiles classname dir nodeid)
       new) ∧
  calls (do_exporttables repr_export self args w).1 = calls w.
Proof.
  intros w'.
  destruct (do_export_leaves repr_export self args export_files w)
    as [[Hids Hflag] (new & Hcalls & Hnew)].
  split_and!; [done..| |].
  - exists new. split; [done|].
    eapply Forall_impl; [exact Hnew|]. by intros c [_ ?].
  - destruct (do_export_leaves repr_export self args false w)
      as [_ (new' & Hcalls' & Hnew')].
    unfold do_exporttables. rewrite Hcalls'.
    destruct new' as [|c new']; [by rewrite app_nil_r|].
    apply Forall_cons in Hnew' as [[? _] _]. done.
Qed.

Section import_leaves_facts.
Context {Value : Type}.
Variable int : string → result Z.
Variable self : AdminTool Value.

Lemma import_leaves_same (import_files : bool) (w w' : World) :
  files w' = files w → dirs w' = dirs w →
  db_uncommitted w' = db_uncommitted w → calls w' = calls w →
  import_leaves import_files w w'.
Proof.
  intros Hfiles Hdirs Hflag Hcalls. split_and!; [done..|].
  exists []. by rewrite app_nil_r.
Qed.

Lemma import_row_leaves import_files dir classname (cl : Class Value) st nr :
  preserves (import_leaves import_files)
    (import_row int self import_files dir classname cl st nr).
Proof.
  pose proof (import_leaves_refl import_files) as Hrefl.
  pose proof (import_leaves_trans import_files) as Htrans.
  unfold import_row.
  apply (preserves_bind _ Htrans); [apply (preserves_lift _ Hrefl)|intros r].
  destruct st.1 as [file_props|]; [|apply (preserves_mret _ Hrefl)].
  apply (preserves_bind _ Htrans); [|intros _].
  { repeat preserves_step Hrefl Htrans. by apply import_leaves_same. }
  apply (preserves_bind _ Htrans); [apply (preserves_lift _ Hrefl)|intros nodeid].
  apply (preserves_bind _ Htrans); [|intros _].
  { unfold call. apply preserves_modify. intros w. split_and!; [done..|].
    exists [ImportList classname file_props r]. split; [done|].
    by repeat constructor. }
  apply (preserves_bind _ Htrans); [|intros _].
  { destruct (has_import_files cl); simpl; [|apply (preserves_mret _ Hrefl)].
    destruct import_files; simpl; [|apply (preserves_mret _ Hrefl)].
    unfold call. apply preserves_modify. intros w. split_and!; [done..|].
    exists [ImportFiles classname dir nodeid]. split; [done|].
    by repeat constructor. }
  repeat preserves_step Hrefl Htrans.
Qed.

Lemma import_file_leaves import_files dir file :
  preserves (import_leaves import_files)
    (import_file int self import_files dir file).
Proof.
  pose proof (import_leaves_refl import_files) as Hrefl.
  pose proof (import_leaves_trans import_files) as Htrans.
  unfold import_file. destruct (splitext file) as [classname ext].
  destruct (bool_decide (ext ≠ ".csv") || endswith classname "-journals");
    [apply (preserves_mret _ Hrefl)|].
  apply (preserves_bind _ Htrans); [apply (preserves_lift _ Hrefl)|intros cl].
  apply (preserves_bind _ Htrans); [|intros maxid].
  - unfold import_class_rows.
    apply (preserves_bind _ Htrans); [apply (preserves_open_r _ Hrefl)|intros reader].
    apply (preserves_bind _ Htrans); [|intros st].
    { apply (preserves_for_fold _ Hrefl Htrans). intros acc nr.
      apply import_row_leaves. }
    repeat preserves_step Hrefl Htrans. by apply import_leaves_same.
  - unfold import_class_journals.
    apply (preserves_bind _ Htrans); [apply (preserves_open_r _ Hrefl)|intros reader].
    apply (preserves_bind _ Htrans); [apply (preserves_lift _ Hrefl)|intros rows].
    apply (preserves_bind _ Htrans); [|intros _].
    { unfold call. apply preserves_modify. intros w. split_and!; [done..|].
      exists [ImportJournals classname rows]. split; [done|].
      by repeat constructor. }
    repeat preserves_step Hrefl Htrans; by apply import_leaves_same.
Qed.

Lemma import_files_leaves import_files dir (listing : list string) :
  preserves (import_leaves import_files)
    (for_each (import_file int self import_files dir) listing).
Proof.
  unfold for_each.
  apply (preserves_for_fold _ (import_leaves_refl import_files)
           (import_leaves_trans import_files)).
  intros _ file. apply import_file_leaves.
Qed.
End import_leaves_facts.

(** X9.  An import, however it ends, writes no file and makes no
    directory; it makes no call of [export_files], and
    [do_importtables] makes no call of [import_files]. *)
Theorem do_import_leaves_files {Value : Type} (int : string → result Z)
    (listdir : string → list string) (self : AdminTool Value)
    (args : list string) (import_files : bool) (w : World) :
  let w' := (do_import int listdir self args import_files w).1 in
  files w' = files w ∧
  dirs w' = dirs w ∧
  (∃ new,
     calls w' = calls w ++ new ∧
     Forall (λ c, ∀ classname dir nodeid,
                c ≠ ExportFiles classname dir nodeid ∧
                (import_files = false → c ≠ ImportFiles classname dir nodeid))
       new).
Proof.
  intros w'. unfold w', do_import.
  case_decide; [split_and!; [done..|]; exists []; by rewrite app_nil_r|].
  destruct (import_files_leaves int self import_files
              (default "" (head args)) (listdir (default "" (head args))) w)
    as ([Hfiles Hdirs] & Hflag & new & Hcalls & Hnew).
  unfold mbind, IO_bind.
  destruct (for_each _ _ w) as [w1 [e|[]]]; simpl in *.
  all: split_and!; [done..|]; exists new; split; [done|].
  all: eapply Forall_impl; [exact Hnew|]; intros c Hc classname dir nodeid.
  all: destruct c; try done; split; try done; intros ->; done.
Qed.

(** X10.  [do_import] sets the flag for uncommitted changes exactly
    when it returns, and then it returns 0: after an exception the flag
    is what it was, although rows may have been imported. *)
Theorem do_import_uncommitted {Value : Type} (int : string → result Z)
    (listdir : string → list string) (self : AdminTool Value)
    (args : list string) (import_files : bool) (w : World) :
  let run := do_import int listdir self args import_files w in
  match run.2 with
  | Return ret => ret = 0%Z ∧ db_uncommitted run.1 = true
  | Raise e => db_uncommitted run.1 = db_uncommitted w
  end.
Proof.
  unfold do_import. case_decide; [done|].
  destruct (import_files_leaves int self import_files
              (default "" (head args)) (listdir (default "" (head args))) w)
    as (_ & Hflag & _).
  unfold mbind, IO_bind.
  destruct (for_each _ _ w) as [w1 [e|[]]]; simpl in *; done.
Qed.

(** ** The ways an export fails *)

Section raises_only_facts.
Context (P : Exn → Prop).







End raises_only_facts.



Section export_failures.
Context {Value : Type}.
Variable repr_export : Value → string.
Variable self : AdminTool Value.

End export_failures.






Lemma raises_for_fold_app {A B : Type} (body : B → A → IO B) (acc : B)
    (l1 l2 : list A) (x : A) (w : World) (e : Exn) (Q : World → Prop) :
  returns (for_fold body acc l1) w (λ w1 acc1, raises (body acc1 x) w1 e Q) →
  raises (for_fold body acc (l1 ++ x :: l2)) w e Q.
Proof.
  intros (w1 & acc1 & Hl1 & w2 & Hx & HQ). exists w2. split; [|done].
  by apply (for_fold_Raise body acc acc1 l1 l2 x w w1 w2 e).
Qed.

(** X13.  When a class of the list does not exist, the export ends with
    the [UsageError] for it at that point of the list.  The classes
    listed before it have been exported in full, the files of the
    classes listed after it are as they were, and 0 is not
    returned. *)
Theorem do_export_unknown_class {Value : Type} (repr_export : Value → string)
    (self : AdminTool Value) (args : list string) (export_files : bool)
    (pre post : list string) (unknown : string) (w : World) :
  args ≠ [] →
  export_classes self args = pre ++ unknown :: post →
  exportable repr_export self pre →
  getclass (classes self) unknown = None →
  let dir := default "" (last args) in
  ∃ w',
    do_export repr_export self args export_files w
      = (w', Raise (UsageError (NoSuchClass unknown))) ∧
    ∀ classname cl,
      getclass (classes self) classname = Some cl →
      (∀ other, other ∈ pre → classname ≠ (other ++ "-journals")%string) →
      files w' !! (dir, (classname ++ ".csv")%string) =
        if decide (classname ∈ pre)
        then Some (export_rows cl (export_order cl))
        else files w !! (dir, (classname ++ ".csv")%string).
Proof.
  intros Hargs Hlist Hpre Hunknown dir.
  assert (raises (do_export repr_export self args export_files) w
            (UsageError (NoSuchClass unknown))
            (λ w', ∀ classname cl,
               getclass (classes self) classname = Some cl →
               (∀ other, other ∈ pre →
                         classname ≠ (other ++ "-journals")%string) →
               files w' !! (dir, (classname ++ ".csv")%string) =
                 if decide (classname ∈ pre)
                 then Some (export_rows cl (export_order cl))
                 else files w !! (dir, (classname ++ ".csv")%string)))
    as (w' & Hrun & Hfiles).
  { unfold do_export. rewrite decide_False by (destruct args; simpl; [done|lia]).
    apply raises_bind_r. unfold makedirs. apply returns_modify.
    apply raises_bind_l. rewrite Hlist. apply raises_for_fold_app.
    apply (export_classes_returns repr_export self export_files dir pre
             (CSV_FIELD_SIZE self) _ _ Hpre).
    intros w1 Hf1. exists w1. split; [|exact Hf1].
    unfold export_class, get_class. by rewrite Hunknown. }
  by exists w'.
Qed.

Lemma do_export_unknown_class_witness :
  ∃ w',
    do_export id Examples.admin_tool ["user,group"; "out"] true
      Examples.empty_world
    = (w', Raise (UsageError (NoSuchClass "group"))) ∧
    files w' !! ("out", "user.csv") =
      Some (export_rows Examples.user (export_order Examples.user)).
Proof.
  destruct (do_export_unknown_class id Examples.admin_tool
              ["user,group"; "out"] true ["user"] [] "group"
              Examples.empty_world) as (w' & Hrun & Hfiles).
  - discriminate.
  - reflexivity.
  - repeat constructor. exists Examples.user. split; [reflexivity|].
    repeat constructor.
  - reflexivity.
  - exists w'. split; [done|].
    apply (Hfiles "user" Examples.user); [reflexivity|].
    intros other [->|[]%elem_of_nil]%elem_of_cons. discriminate.
Defined.

(** ** The warning about the field size *)

Lemma returns_only_bind {A B : Type} (P1 : A → Prop) (P : B → Prop)
    (m : IO A) (k : A → IO B) :
  returns_only P1 m → (∀ a, P1 a → returns_only P (k a)) →
  returns_only P (m ≫= k).
Proof.
  intros Hm Hk w b. unfold mbind, IO_bind. specialize (Hm w).
  destruct (m w) as [w1 [e|a]]; simpl in *; [done|].
  apply Hk. by apply Hm.
Qed.

Lemma returns_only_any {A : Type} (m : IO A) : returns_only (λ _, True) m.
Proof. done. Qed.

Lemma returns_only_mret {A : Type} (P : A → Prop) (a : A) :
  P a → returns_only P (mret a).
Proof. intros Ha w a' [= <-]. done. Qed.

Lemma returns_only_for_fold {A B : Type} (f : B → A → B) (body : B → A → IO B)
    (acc : B) (l : list A) :
  (∀ acc x, returns_only (λ acc', acc' = f acc x) (body acc x)) →
  returns_only (λ acc', acc' = foldl f acc l) (for_fold body acc l).
Proof.
  intros Hbody. revert acc. induction l as [|x l IH]; intros acc; simpl.
  - by apply returns_only_mret.
  - eapply returns_only_bind; [apply Hbody|]. intros acc' ->. apply IH.
Qed.

Lemma output_grows_refl (P : Message → Prop) (w : World) : output_grows P w w.
Proof. exists []. by rewrite app_nil_r. Qed.

Lemma output_grows_trans (P : Message → Prop) (w1 w2 w3 : World) :
  output_grows P w1 w2 → output_grows P w2 w3 → output_grows P w1 w3.
Proof.
  intros (new1 & H1 & HP1) (new2 & H2 & HP2). exists (new1 ++ new2).
  split; [by rewrite H2, H1, app_assoc|by apply Forall_app].
Qed.

Lemma output_grows_same (P : Message → Prop) (w w' : World) :
  output w' = output w → output_grows P w w'.
Proof. intros Hout. exists []. by rewrite app_nil_r. Qed.

Lemma output_grows_one (P : Message → Prop) (w w' : World) (m : Message) :
  output w' = output w ++ [m] → P m → output_grows P w w'.
Proof. intros Hout Hm. exists [m]. split; [done|]. by constructor. Qed.

(** A fold that either keeps the value or moves it to one with [P]
    ends with the value it started from or with one with [P]. *)
Lemma foldl_keeps_or {A : Type} (P : Z → Prop) (f : Z → A → Z) (m : Z)
    (l : list A) :
  (∀ m x, x ∈ l → f m x = m ∨ P (f m x)) →
  foldl f m l = m ∨ P (foldl f m l).
Proof.
  revert m. induction l as [|x l IH]; intros m Hf; simpl; [by left|].
  destruct (IH (f m x)) as [Heq|HP].
  { intros m' y Hy. apply Hf. by right. }
  - rewrite Heq. apply Hf. by left.
  - by right.
Qed.

Section warning_facts.
Context {Value : Type}.
Variable repr_export : Value → string.
Variable self : AdminTool Value.

(** The length of the stored value of a property, plus [d]. *)
Lemma track_value node d max_len p :
  track repr_export node d max_len p = max_len ∨
  track repr_export node d max_len p
    = (Z.of_nat (String.length (repr_export (node p))) + d)%Z.
Proof. unfold track. case_decide; [by right|by left]. Qed.

Lemma class_max_len_attained (cl : Class Value) max_len :
  class_max_len repr_export max_len cl = max_len ∨
  ∃ nodeid p,
    nodeid ∈ getnodeids cl ∧ p ∈ export_propnames cl ∧
    class_max_len repr_export max_len cl
      = (Z.of_nat (String.length (repr_export (getnode cl nodeid p)))
         + row_d repr_export cl (export_propnames cl) nodeid)%Z.
Proof.
  unfold class_max_len.
  apply (foldl_keeps_or
           (λ z, ∃ nodeid p,
              nodeid ∈ getnodeids cl ∧ p ∈ export_propnames cl ∧
              z = (Z.of_nat (String.length (repr_export (getnode cl nodeid p)))
                   + row_d repr_export cl (export_propnames cl) nodeid)%Z)).
  intros m nodeid Hnode. rewrite export_order_Permutation in Hnode.
  unfold node_max_len.
  destruct (foldl_keeps_or
              (λ z, ∃ p, p ∈ export_propnames cl ∧
                 z = (Z.of_nat (String.length (repr_export (getnode cl nodeid p)))
                      + row_d repr_export cl (export_propnames cl) nodeid)%Z)
              (track repr_export (getnode cl nodeid)
                 (row_d repr_export cl (export_propnames cl) nodeid))
              m (export_propnames cl)) as [Heq|(p & Hp & Heq)].
  - intros m' p Hp. destruct (track_value (getnode cl nodeid)
      (row_d repr_export cl (export_propnames cl) nodeid) m' p) as [?|Hll];
      [by left|right]. by exists p.
  - by left.
  - right. by exists nodeid, p.
Qed.

Lemma do_export_max_len_attained args :
  do_export_max_len repr_export self args = CSV_FIELD_SIZE self ∨
  ∃ classname cl nodeid p,
    classname ∈ export_classes self args ∧
    getclass (classes self) classname = Some cl ∧
    nodeid ∈ getnodeids cl ∧ p ∈ export_propnames cl ∧
    do_export_max_len repr_export self args
      = (Z.of_nat (String.length (repr_export (getnode cl nodeid p)))
         + row_d repr_export cl (export_propnames cl) nodeid)%Z.
Proof.
  unfold do_export_max_len.
  apply (foldl_keeps_or
           (λ z, ∃ classname cl nodeid p,
              classname ∈ export_classes self args ∧
              getclass (classes self) classname = Some cl ∧
              nodeid ∈ getnodeids cl ∧ p ∈ export_propnames cl ∧
              z = (Z.of_nat (String.length (repr_export (getnode cl nodeid p)))
                   + row_d repr_export cl (export_propnames cl) nodeid)%Z)).
  intros m classname Hin.
  destruct (getclass (classes self) classname) as [cl|] eqn:Hcl; [|by left].
  destruct (class_max_len_attained cl m) as [?|(nodeid & p & ? & ? & ?)];
    [by left|right].
  by exists classname, cl, nodeid, p.
Qed.
End warning_facts.

(** X14.  The length that an export tracks is the largest of
    [CSV_FIELD_SIZE] and, over all classes, nodes and properties of the
    export, the length of the stored value as [repr_export] writes it
    plus the [d] of its row: it is at least each of them and it is one
    of them.  So it exceeds [CSV_FIELD_SIZE] exactly when one of these
    sums does. *)
Theorem do_export_max_len_is_max {Value : Type} (repr_export : Value → string)
    (self : AdminTool Value) (args : list string) :
  let max_len := do_export_max_len repr_export self args in
  let sums : Z → Prop := λ z,
    ∃ classname cl nodeid p,
      classname ∈ export_classes self args ∧
      getclass (classes self) classname = Some cl ∧
      nodeid ∈ getnodeids cl ∧ p ∈ export_propnames cl ∧
      z = (Z.of_nat (String.length (repr_export (getnode cl nodeid p)))
           + row_d repr_export cl (export_propnames cl) nodeid)%Z in
  (CSV_FIELD_SIZE self ≤ max_len)%Z ∧
  (∀ z, sums z → (z ≤ max_len)%Z) ∧
  (max_len = CSV_FIELD_SIZE self ∨ sums max_len) ∧
  ((max_len > CSV_FIELD_SIZE self)%Z ↔
   ∃ z, sums z ∧ (z > CSV_FIELD_SIZE self)%Z).
Proof.
  intros max_len sums.
  assert (CSV_FIELD_SIZE self ≤ max_len)%Z as Hsize
    by apply do_export_max_len_ge.
  assert (∀ z, sums z → (z ≤ max_len)%Z) as Hge.
  { intros z (classname & cl & nodeid & p & Hin & Hcl & Hnode & Hp & ->).
    by apply (do_export_max_len_ge_field repr_export self args classname). }
  assert (max_len = CSV_FIELD_SIZE self ∨ sums max_len) as Hattained
    by apply do_export_max_len_attained.
  split_and!; [done..|]. split.
  - intros Hgt. destruct Hattained as [Heq|Hsum]; [lia|]. by exists max_len.
  - intros (z & Hz & Hgt). apply Hge in Hz. lia.
Qed.

Lemma do_export_max_len_is_max_witness :
  (CSV_FIELD_SIZE Examples.admin_tool
   ≤ do_export_max_len id Examples.admin_tool ["out"])%Z.
Proof.
  apply (proj1 (do_export_max_len_is_max id Examples.admin_tool ["out"])).
Defined.

Section warning_output.
Context {Value : Type}.
Variable repr_export : Value → string.
Variable self : AdminTool Value.

Lemma export_class_quiet export_files dir max_len classname :
  preserves (output_grows quiet)
    (export_class repr_export self export_files dir max_len classname).
Proof.
  pose proof (output_grows_refl quiet) as Hrefl.
  pose proof (output_grows_trans quiet) as Htrans.
  assert (∀ c m, quiet m → preserves (output_grows quiet) (when c (print m)))
    as Hprint.
  { intros c m Hm. apply (preserves_when _ Hrefl). unfold print.
    apply preserves_modify. intros w. by apply (output_grows_one _ _ _ m). }
  assert (∀ path row, preserves (output_grows quiet) (writerow path row))
    as Hwrite.
  { intros path row. unfold writerow. apply preserves_modify. intros w.
    by apply output_grows_same. }
  assert (∀ path, preserves (output_grows quiet) (open_w path)) as Hopen.
  { intros path. unfold open_w. apply preserves_modify. intros w.
    by apply output_grows_same. }
  unfold export_class.
  apply (preserves_bind _ Htrans); [apply (preserves_lift _ Hrefl)|intros cl].
  apply (preserves_bind _ Htrans); [by apply Hprint|intros _].
  apply (preserves_bind _ Htrans); [apply Hopen|intros _].
  apply (preserves_bind _ Htrans); [apply Hwrite|intros _].
  apply (preserves_bind _ Htrans); [|intros max_len'].
  { apply (preserves_for_fold _ Hrefl Htrans). intros acc nodeid.
    unfold export_node.
    apply (preserves_bind _ Htrans); [by apply Hprint|intros _].
    case_decide; [apply (preserves_raise _ Hrefl)|].
    apply (preserves_bind _ Htrans); [apply Hwrite|intros _].
    apply (preserves_bind _ Htrans); [|intros _; apply (preserves_mret _ Hrefl)].
    apply (preserves_when _ Hrefl). unfold call. apply preserves_modify.
    intros w. by apply output_grows_same. }
  apply (preserves_bind _ Htrans); [apply Hopen|intros _].
  apply (preserves_bind _ Htrans); [by apply Hprint|intros _].
  apply (preserves_bind _ Htrans); [|intros _; apply (preserves_mret _ Hrefl)].
  unfold for_each. apply (preserves_for_fold _ Hrefl Htrans).
  intros _ row. apply Hwrite.
Qed.

Lemma export_class_value export_files dir max_len classname :
  returns_only
    (λ max_len',
       max_len' = match getclass (classes self) classname with
                  | Some cl => class_max_len repr_export max_len cl
                  | None => max_len
                  end)
    (export_class repr_export self export_files dir max_len classname).
Proof.
  unfold export_class, get_class.
  destruct (getclass (classes self) classname) as [cl|]; [|done].
  eapply (returns_only_bind (λ a, a = cl)); [by intros w a [= <-]|intros ? ->].
  eapply returns_only_bind; [apply returns_only_any|intros _ _].
  eapply returns_only_bind; [apply returns_only_any|intros _ _].
  eapply returns_only_bind; [apply returns_only_any|intros _ _].
  eapply returns_only_bind.
  { apply (returns_only_for_fold
             (node_max_len repr_export cl (export_propnames cl))).
    intros acc nodeid. unfold export_node.
    eapply returns_only_bind; [apply returns_only_any|intros _ _].
    case_decide; [done|].
    eapply returns_only_bind; [apply returns_only_any|intros _ _].
    eapply returns_only_bind; [apply returns_only_any|intros _ _].
    by apply returns_only_mret. }
  intros max_len' ->.
  eapply returns_only_bind; [apply returns_only_any|intros _ _].
  eapply returns_only_bind; [apply returns_only_any|intros _ _].
  eapply returns_only_bind; [apply returns_only_any|intros _ _].
  by apply returns_only_mret.
Qed.

Lemma do_export_output args export_files (w : World) :
  let run := do_export repr_export self args export_files w in
  let max_len := do_export_max_len repr_export self args in
  ∃ new,
    output run.1 = output w ++ new ∧
    ∀ m, FieldSizeWarning m ∈ new ↔
         run.2 = Return 0%Z ∧ m = max_len ∧ (max_len > CSV_FIELD_SIZE self)%Z.
Proof.
  intros run max_len. unfold run, do_export.
  case_decide as Hargs.
  { exists []. rewrite app_nil_r. split; [done|]. intros m. split.
    - by intros ?%elem_of_nil.
    - by intros [? _]. }
  cbv beta iota delta [mbind IO_bind makedirs modify].
  match goal with
  | |- context [for_fold ?body ?acc ?l ?w0] =>
      pose proof (preserves_for_fold _ (output_grows_refl quiet)
                    (output_grows_trans quiet) body acc l
                    (λ a0 x0, export_class_quiet export_files _ a0 x0) w0)
        as (new & Hout & Hquiet);
      pose proof (returns_only_for_fold
                    (λ m0 c0,
                       match getclass (classes self) c0 with
                       | Some cl => class_max_len repr_export m0 cl
                       | None => m0
                       end) body acc l
                    (λ a0 x0, export_class_value export_files _ a0 x0) w0)
        as Hvalue;
      destruct (for_fold body acc l w0) as [w1 [e|acc']]
  end; simpl in *.
  - exists new. split; [done|]. intros m. split.
    + intros Hin. rewrite Forall_forall in Hquiet.
      by destruct (Hquiet _ Hin m).
    + by intros [? _].
  - specialize (Hvalue acc' eq_refl).
    fold (do_export_max_len repr_export self args) in Hvalue.
    fold max_len in Hvalue. subst acc'.
    unfold when, print, modify, mret, IO_ret.
    case_bool_decide as Hmax; simpl.
    + exists (new ++ [FieldSizeWarning max_len]).
      split; [by rewrite Hout, app_assoc|]. intros m.
      rewrite elem_of_app, list_elem_of_singleton. split.
      * intros [Hin|[= ->]]; [|done]. rewrite Forall_forall in Hquiet.
        by destruct (Hquiet _ Hin m).
      * intros (_ & -> & _). by right.
    + exists new. split; [done|]. intros m. split.
      * intros Hin. rewrite Forall_forall in Hquiet.
        by destruct (Hquiet _ Hin m).
      * intros (_ & _ & ?). done.
Qed.
End warning_output.

(** X15.  Among the messages that an export prints, the warning about
    the field size appears exactly when the export returns and the
    length it has tracked exceeds [CSV_FIELD_SIZE]; the warning then
    carries that length.  An export that ends with an exception prints
    no warning, whatever the lengths were. *)
Theorem do_export_warning_iff {Value : Type} (repr_export : Value → string)
    (self : AdminTool Value) (args : list string) (export_files : bool)
    (w : World) :
  let run := do_export repr_export self args export_files w in
  let max_len := do_export_max_len repr_export self args in
  ∃ new,
    output run.1 = output w ++ new ∧
    ∀ m, FieldSizeWarning m ∈ new ↔
         run.2 = Return 0%Z ∧ m = max_len ∧ (max_len > CSV_FIELD_SIZE self)%Z.
Proof. apply do_export_output. Qed.

(** X16.  A row whose [d] is not positive stops the export of its class
    with the [AssertionError]: the row file holds the header and the
    rows of the nodes that come before it in the order of the export,
    the row itself and the rows after it are not written, and the
    journal file of the class is not opened. *)
Theorem export_class_assertion_fails {Value : Type}
    (repr_export : Value → string) (self : AdminTool Value)
    (export_files : bool) (dir : string) (max_len : Z) (classname : string)
    (cl : Class Value) (pre post : list string) (bad : string) (w : World) :
  getclass (classes self) classname = Some cl →
  export_order cl = pre ++ bad :: post →
  Forall (λ nodeid, row_d repr_export cl (export_propnames cl) nodeid > 0)%Z
    pre →
  ¬ (row_d repr_export cl (export_propnames cl) bad > 0)%Z →
  ∃ w',
    export_class repr_export self export_files dir max_len classname w
      = (w', Raise (AssertionError "Bad assertion d > 0")) ∧
    files w' !! (dir, (classname ++ ".csv")%string)
      = Some (export_rows cl pre) ∧
    files w' !! (dir, (classname ++ "-journals.csv")%string)
      = files w !! (dir, (classname ++ "-journals.csv")%string).
Proof.
  intros Hcl Horder Hpre Hbad.
  assert (raises
            (export_class repr_export self export_files dir max_len classname)
            w (AssertionError "Bad assertion d > 0")
            (λ w', files w' =
                     <[(dir, (classname ++ ".csv")%string) :=
                         export_rows cl pre]> (files w)))
    as (w' & Hrun & Hfiles).
  { unfold export_class, get_class. rewrite Hcl.
    apply raises_bind_r, returns_lift.
    apply raises_bind_r, returns_when.
    assert (∀ w0, files w0 = files w →
              raises
                (open_w (dir, (classname ++ ".csv")%string);;
                 writerow (dir, (classname ++ ".csv")%string)
                   (export_propnames cl ++ ["is retired"]);;
                 max_len' ← for_fold
                              (export_node repr_export self export_files dir
                                 classname cl (export_propnames cl))
                              max_len (export_order cl);
                 open_w (dir, (classname ++ "-journals.csv")%string);;
                 when (verbose self) (print (ExportingJournal classname));;
                 for_each (writerow (dir, (classname ++ "-journals.csv")%string))
                   (export_journals cl);;
                 mret max_len') w0 (AssertionError "Bad assertion d > 0")
                (λ w', files w' =
                         <[(dir, (classname ++ ".csv")%string) :=
                             export_rows cl pre]> (files w))) as Hrest.
    { intros w0 Hw0.
      apply raises_bind_r. unfold open_w. apply returns_modify.
      apply raises_bind_r. unfold writerow. apply returns_modify.
      apply raises_bind_l. rewrite Horder. apply raises_for_fold_app.
      match goal with
      | |- returns _ ?w1 _ =>
          destruct (export_nodes_Return repr_export self export_files dir
                      classname cl (export_propnames cl) max_len pre
                      [export_propnames cl ++ ["is retired"]] w1 Hpre)
            as (w2 & Hw2 & Hf2)
      end.
      { simpl. by rewrite lookup_insert_eq, lookup_insert_eq. }
      eapply returns_eq; [exact Hw2|].
      destruct (export_node_Raise repr_export self export_files dir classname
                  cl (export_propnames cl)
                  (foldl (node_max_len repr_export cl (export_propnames cl))
                     max_len pre) bad w2 Hbad) as (w3 & Hw3 & Hf3).
      exists w3. split; [done|].
      rewrite Hf3, Hf2. simpl. by rewrite !insert_insert_eq, Hw0. }
    destruct (negb export_files && has_export_files cl).
    - unfold print. apply returns_modify. by apply Hrest.
    - by apply Hrest. }
  exists w'. split_and!; [done|..].
  - rewrite Hfiles. apply lookup_insert_eq.
  - rewrite Hfiles. apply lookup_insert_ne, csv_path_ne.
Qed.

Lemma export_class_assertion_fails_witness :
  let short : Class string :=
    {| getprops := ∅; export_propnames := ["id"];
       getnodeids := ["1"; "2"]; getkey := None;
       get := λ _ _, ""; is_retired := λ _, false;
       getnode := λ nodeid _, nodeid;
       export_list := λ _ nodeid, if decide (nodeid = "1") then ["1"; "x"] else [];
       export_journals := []; has_export_files := false;
       has_import_files := false;
       import_list := λ _ _, Return "" |} in
  let tool : AdminTool string :=
    {| classes := [("short", short)]; CSV_FIELD_SIZE := 10; verbose := false |} in
  ∃ w',
    export_class id tool true "out" 10 "short" Examples.empty_world
      = (w', Raise (AssertionError "Bad assertion d > 0")) ∧
    files w' !! ("out", "short.csv") = Some [["id"; "is retired"]; ["1"; "x"]] ∧
    files w' !! ("out", "short-journals.csv") = None.
Proof.
  intros short tool.
  apply (export_class_assertion_fails id tool true "out" 10 "short" short
           ["1"] [] "2" Examples.empty_world).
  - reflexivity.
  - reflexivity.
  - by repeat constructor.
  - vm_compute. discriminate.
Defined.

(** ** More on the import *)

(** X17.  The import of a class file without data rows, be it empty or
    a header alone, calls [import_list] for no row, passes the journal
    to the class and sets the id counter of the class to 2, whatever
    the counter was. *)
Theorem import_file_without_rows {Value : Type} (int : string → result Z)
    (self : AdminTool Value) (import_files : bool)
    (dir file classname : string) (cl : Class Value) (reader : list Row)
    (journal : list Row) (w : World) :
  splitext file = (classname, ".csv") →
  endswith classname "-journals" = false →
  getclass (classes self) classname = Some cl →
  files w !! (dir, file) = Some reader →
  length reader ≤ 1 →
  Forall (λ r, csv_row (CSV_FIELD_SIZE self) r = Return r) reader →
  files w !! (dir, (classname ++ "-journals.csv")%string) = Some journal →
  Forall (λ r, csv_row (CSV_FIELD_SIZE self) r = Return r) journal →
  ∃ w',
    import_file int self import_files dir file w = (w', Return tt) ∧
    ids w' = <[classname := "2"]> (ids w) ∧
    calls w' = calls w ++ [ImportJournals classname journal].
Proof.
  intros Hsplit Hends Hcl Hfile Hlen Hcsv Hjournal Hjcsv.
  rewrite (import_file_class int self import_files dir file classname cl
             Hsplit Hends Hcl).
  assert (returns
            (maxid ← import_class_rows int self import_files dir file classname cl;
             import_class_journals self dir classname cl maxid) w
            (λ w' _, ids w' = <[classname := "2"]> (ids w) ∧
                     calls w' = calls w ++ [ImportJournals classname journal]))
    as (w' & [] & Hrun & Hids & Hcalls).
  { apply returns_bind.
    assert (returns
              (import_class_rows int self import_files dir file classname cl) w
              (λ w1 maxid, maxid = 1%Z ∧ ids w1 = ids w ∧ files w1 = files w ∧
                           calls w1 = calls w)) as (w1 & maxid & Hrows & HQ).
    { destruct reader as [|header [|r reader]]; [| |simpl in Hlen; lia].
      - unfold import_class_rows. apply returns_bind.
        eapply returns_eq; [unfold open_r; by rewrite Hfile|].
        simpl. repeat returns_step. done.
      - eapply import_class_rows_returns; [done..|constructor|constructor|].
        intros w1 Hids Hfiles Hcalls. split_and!; [done..|].
        by rewrite Hcalls, app_nil_r. }
    destruct HQ as (-> & Hids1 & Hfiles1 & Hcalls1).
    eapply returns_eq; [exact Hrows|].
    eapply import_class_journals_returns; [by rewrite Hfiles1|done|].
    intros w' Hids' _ Hcalls'. by rewrite Hids', Hids1, Hcalls', Hcalls1. }
  by exists w'.
Qed.

Lemma import_file_without_rows_witness :
  ∃ w',
    import_file Examples.int Examples.import_tool true "in" "status.csv"
      (Examples.directory [] [["id"; "name"; "is retired"]] (Some [["j"]]))
    = (w', Return tt) ∧
    ids w' = <["status" := "2"]> ∅ ∧
    calls w' = [ImportJournals "status" [["j"]]].
Proof.
  apply (import_file_without_rows Examples.int Examples.import_tool true "in"
           "status.csv" "status" Examples.status [["id"; "name"; "is retired"]]
           [["j"]]
           (Examples.directory [] [["id"; "name"; "is retired"]] (Some [["j"]])));
    [reflexivity|reflexivity|reflexivity|reflexivity|simpl; lia
    |by repeat constructor|reflexivity|by repeat constructor].
Defined.

Lemma csv_row_Raise (limit : Z) (r : Row) :
  Exists (λ f, Z.of_nat (String.length f) > limit)%Z r →
  csv_row limit r = Raise CsvError.
Proof.
  intros Hlong. unfold csv_row. rewrite decide_False; [done|].
  intros Hok. apply Exists_exists in Hlong as (f & Hf & Hlen).
  rewrite Forall_forall in Hok. specialize (Hok f Hf). lia.
Qed.

(** X18.  A data row with a field longer than [CSV_FIELD_SIZE] ends the
    import with the error of the [csv] reader before the class sees the
    row: the rows before it stay imported, the journal is not read and
    the id counter of the class is not set. *)
Theorem import_file_oversized_field {Value : Type} (int : string → result Z)
    (self : AdminTool Value) (import_files : bool)
    (dir file classname : string) (cl : Class Value) (header : Row)
    (rows : list Row) (nodeids : list string) (zs : list Z) (bad : Row)
    (more : list Row) (w : World) :
  splitext file = (classname, ".csv") →
  endswith classname "-journals" = false →
  getclass (classes self) classname = Some cl →
  files w !! (dir, file) = Some (header :: rows ++ bad :: more) →
  Forall (λ r, csv_row (CSV_FIELD_SIZE self) r = Return r) (header :: rows) →
  Forall2 (λ r nodeid, import_list cl header r = Return nodeid) rows nodeids →
  Forall2 (λ nodeid z, int nodeid = Return z) nodeids zs →
  Exists (λ f, Z.of_nat (String.length f) > CSV_FIELD_SIZE self)%Z bad →
  ∃ w',
    import_file int self import_files dir file w = (w', Raise CsvError) ∧
    ids w' = ids w ∧
    calls w' = calls w
      ++ row_calls import_files dir classname cl header rows nodeids.
Proof.
  intros Hsplit Hends Hcl Hfile Hcsv Himp Hint Hbad.
  apply csv_row_Raise in Hbad.
  apply Forall_cons in Hcsv as [Hhead Hcsv].
  rewrite (import_file_class int self import_files dir file classname cl
             Hsplit Hends Hcl).
  assert (raises
            (maxid ← import_class_rows int self import_files dir file classname cl;
             import_class_journals self dir classname cl maxid) w CsvError
            (λ w', ids w' = ids w ∧
               calls w' = calls w
                 ++ row_calls import_files dir classname cl header rows nodeids))
    as (w' & Hrun & HQ).
  { apply raises_bind_l. unfold import_class_rows. apply raises_bind_r.
    eapply returns_eq; [unfold open_r; by rewrite Hfile|].
    apply raises_bind_l. unfold enumerate.
    cbn [length seq zip zip_with for_fold].
    apply raises_bind_r.
    eapply returns_eq.
    { unfold import_row. simpl. rewrite Hhead. reflexivity. }
    change (zip_with pair (seq 1 (length (rows ++ bad :: more)))
              (rows ++ bad :: more))
      with (zip (seq 1 (length (rows ++ bad :: more))) (rows ++ bad :: more)).
    rewrite enumerate_from_app. cbn [length seq zip zip_with].
    apply raises_for_fold_app.
    apply (import_rows_returns int self import_files dir classname cl header
             rows nodeids zs Hcsv Himp Hint 1 1%Z w).
    intros w1 Hids _ Hcalls. exists w1. split; [|done].
    unfold import_row. simpl. by rewrite Hbad. }
  by exists w'.
Qed.

Lemma import_file_oversized_field_witness :
  let tool : AdminTool unit :=
    {| classes := Examples.tracker; CSV_FIELD_SIZE := 4; verbose := false |} in
  ∃ w',
    import_file Examples.int tool true "in" "status.csv"
      (Examples.directory []
         [["id"; "name"; "is"]; ["1"; "open"; "False"]; ["2"; "resolved"; "False"]]
         (Some []))
    = (w', Raise CsvError) ∧
    ids w' = ∅ ∧
    calls w' = [] ++ row_calls true "in" "status" Examples.status
                       ["id"; "name"; "is"] [] [].
Proof.
  intros tool.
  apply (import_file_oversized_field Examples.int tool true "in" "status.csv"
           "status" Examples.status ["id"; "name"; "is"] []
           [] [] ["1"; "open"; "False"] [["2"; "resolved"; "False"]]
           (Examples.directory []
              [["id"; "name"; "is"]; ["1"; "open"; "False"];
               ["2"; "resolved"; "False"]] (Some [])));
    [reflexivity|reflexivity|reflexivity|reflexivity
    |apply Forall_cons; split; [reflexivity|constructor]
    |constructor|constructor|].
  apply Exists_cons_tl, Exists_cons_tl, Exists_cons_hd. simpl. lia.
Defined.

(** X19.  A file of the directory whose name ends in [.csv], is not a
    journal file and does not name a class ends the import with the
    [UsageError] for the class: the files before it stay imported, the
    file itself is not opened and the files after it are not read. *)
Theorem do_import_unknown_class {Value : Type} (int : string → result Z)
    (listdir : string → list string) (self : AdminTool Value)
    (args : list string) (import_files : bool) (dir : string)
    (pre post : list string) (file classname : string) (w w1 : World) :
  head args = Some dir →
  listdir dir = pre ++ file :: post →
  for_each (import_file int self import_files dir) pre w = (w1, Return tt) →
  splitext file = (classname, ".csv") →
  endswith classname "-journals" = false →
  getclass (classes self) classname = None →
  do_import int listdir self args import_files w
    = (w1, Raise (UsageError (NoSuchClass classname))).
Proof.
  intros Hargs Hlist Hpre Hsplit Hends Hcl.
  unfold do_import. destruct args as [|arg args]; [done|].
  injection Hargs as ->. rewrite decide_False by (simpl; lia). simpl.
  rewrite Hlist. unfold mbind at 1, IO_bind at 1. unfold for_each in *.
  rewrite (for_fold_Raise _ tt tt pre post file w w1 w1
             (UsageError (NoSuchClass classname)) Hpre); [done|].
  unfold import_file, get_class. rewrite Hsplit, Hends, Hcl.
  by rewrite bool_decide_false by (by intros []).
Qed.

Lemma do_import_unknown_class_witness :
  do_import Examples.int (λ _, ["notes.csv"; "status.csv"])
    Examples.import_tool ["in"] true Examples.empty_world
  = (Examples.empty_world, Raise (UsageError (NoSuchClass "notes"))).
Proof.
  apply (do_import_unknown_class Examples.int (λ _, ["notes.csv"; "status.csv"])
           Examples.import_tool ["in"] true "in" [] ["status.csv"]
           "notes.csv" "notes" Examples.empty_world Examples.empty_world);
    reflexivity.
Defined.

(** ** The size that the warning advises *)

(** X21.  The size that the warning of the export advises is enough to
    read the exported rows back: when the row of a node is the texts of
    its stored values followed by one more field, no field of the row
    is longer than [max_len] at the end of the export, so that a reader
    with that limit takes the row. *)
Theorem do_export_max_len_reads_row {Value : Type}
    (repr_export : Value → string) (self : AdminTool Value)
    (args : list string) (classname : string) (cl : Class Value)
    (nodeid flag : string) :
  classname ∈ export_classes self args →
  getclass (classes self) classname = Some cl →
  nodeid ∈ getnodeids cl →
  export_propnames cl ≠ [] →
  export_list cl (export_propnames cl) nodeid
    = (((λ p, repr_export (getnode cl nodeid p)) <$> export_propnames cl)
       ++ [flag]) →
  csv_row (do_export_max_len repr_export self args)
    (export_list cl (export_propnames cl) nodeid)
  = Return (export_list cl (export_propnames cl) nodeid).
Proof.
  intros Hcn Hcl Hnode Hprops Hshape.
  assert (row_d repr_export cl (export_propnames cl) nodeid
          = Z.of_nat (String.length flag)) as Hd.
  { unfold row_d. cbv zeta. rewrite Hshape, sum_len_app. simpl. lia. }
  pose proof (do_export_max_len_ge_field repr_export self args classname cl
                nodeid) as Hge.
  unfold csv_row. rewrite decide_True; [done|].
  rewrite Hshape. apply Forall_app. split.
  - apply Forall_fmap, Forall_forall. intros p Hp. simpl.
    specialize (Hge p Hcn Hcl Hnode Hp). lia.
  - apply Forall_singleton.
    destruct (export_propnames cl) as [|p props] eqn:Hpn; [done|].
    specialize (Hge p Hcn Hcl Hnode (list_elem_of_here _ _)). lia.
Qed.

Lemma do_export_max_len_reads_row_witness :
  let tool : AdminTool string :=
    {| classes := [("user", Examples.user)]; CSV_FIELD_SIZE := 2;
       verbose := false |} in
  csv_row (do_export_max_len id tool ["out"])
    (export_list Examples.user (export_propnames Examples.user) "3")
  = Return (export_list Examples.user (export_propnames Examples.user) "3").
Proof.
  intros tool.
  apply (do_export_max_len_reads_row id tool ["out"] "user" Examples.user
           "3" "False").
  - apply list_elem_of_here.
  - reflexivity.
  - apply list_elem_of_further, list_elem_of_further, list_elem_of_here.
  - discriminate.
  - reflexivity.
Defined.

(** ** AdminTool._get_choice *)

Lemma _get_choice_loop_sound options prompt default answers value :
  (_get_choice_loop options prompt default answers).1.1 = Chosen value →
  value ∈ options ∨ value = default.
Proof.
  induction answers as [|argument answers IH]; simpl; [done|].
  repeat case_decide.
  - intros [= <-]. by right.
  - intros [= <-]. by left.
  - destruct (_get_choice_loop options prompt default answers) as [[c r] wr].
    exact IH.
Qed.

(** X22.  Whatever is typed, the value of [_get_choice] is one of the
    options or the default that was passed: an answer that is not an
    option is never returned. *)
Theorem get_choice_sound (force : bool) (list_name prompt : string)
    (options : list string) (argument : string) (default : option string)
    (answers : list string) (value : string) :
  (_get_choice force list_name prompt options argument default answers).1.1
    = Chosen value →
  value ∈ options ∨ default = Some value.
Proof.
  unfold _get_choice.
  destruct (from_option Some (head options) default) as [d|] eqn:Hd; [|done].
  assert (d ∈ options ∨ default = Some d) as Hdefault.
  { destruct default as [d'|]; simpl in Hd; [right; congruence|].
    left. destruct options; [done|]. injection Hd as ->. apply list_elem_of_here. }
  case_decide; [intros [= <-]; by left|].
  destruct force; [by intros [= <-]|].
  pose proof (_get_choice_loop_sound options prompt d answers value) as Hloop.
  destruct (_get_choice_loop options prompt d answers) as [[c r] wr].
  simpl in *. intros Hc. destruct (Hloop Hc) as [Hin| ->]; [by left|exact Hdefault].
Qed.

Lemma get_choice_sound_witness :
  "anydbm" ∈ ["anydbm"; "sqlite"] ∨ Some "sqlite" = Some "anydbm".
Proof.
  apply (get_choice_sound false "Back ends" "Select backend"
           ["anydbm"; "sqlite"] "mysql" (Some "sqlite") ["dbm"; "anydbm"]).
  reflexivity.
Defined.

(** X23.  When the argument is not an option and the tool is not
    forced, the first answer that is empty or an option decides: the
    answers before it are asked for again, one prompt each, an empty
    answer gives the default even when the empty text is an option,
    and the answers after it are not read. *)
Theorem get_choice_first_acceptable (list_name prompt : string)
    (options : list string) (argument : string) (default : option string)
    (d : string) (refused : list string) (answer : string)
    (later : list string) :
  from_option Some (head options) default = Some d →
  argument ∉ options →
  Forall (λ a, a ≠ "" ∧ a ∉ options) refused →
  answer = "" ∨ answer ∈ options →
  _get_choice false list_name prompt options argument default
    (refused ++ answer :: later)
  = (Chosen (if decide (answer = "") then d else answer), later,
     OptionList list_name options
     :: replicate (S (length refused)) (Prompt prompt d)).
Proof.
  intros Hd Hargument Hrefused Hanswer. unfold _get_choice. rewrite Hd.
  rewrite decide_False by done.
  assert (_get_choice_loop options prompt d (refused ++ answer :: later)
          = (Chosen (if decide (answer = "") then d else answer), later,
             replicate (S (length refused)) (Prompt prompt d))) as ->; [|done].
  induction Hrefused as [|a refused [Ha1 Ha2] _ IH]; simpl.
  - destruct (decide (answer = "")) as [|Hne]; [done|].
    destruct Hanswer as [|Hin]; [done|]. by rewrite decide_True.
  - rewrite decide_False, decide_False by done. by rewrite IH.
Qed.

Lemma get_choice_first_acceptable_witness :
  _get_choice false "Templates" "Select template" ["classic"; "minimal"]
    "" None (["devel"; "jinja"] ++ "minimal" :: ["classic"])
  = (Chosen "minimal", ["classic"],
     OptionList "Templates" ["classic"; "minimal"]
     :: replicate 3 (Prompt "Select template" "classic")).
Proof.
  apply (get_choice_first_acceptable "Templates" "Select template"
           ["classic"; "minimal"] "" None "classic" ["devel"; "jinja"]
           "minimal" ["classic"]).
  - reflexivity.
  - apply (bool_decide_eq_false_1 _). reflexivity.
  - repeat constructor; try discriminate;
      apply (bool_decide_eq_false_1 _); reflexivity.
  - right. apply (bool_decide_eq_true_1 _). reflexivity.
Defined.

(** ** AdminTool.main *)

Lemma main_environ_separator env : main.separator (main.environ env) = None.
Proof. unfold main.environ. by destruct (env !! "ROUNDUP_LOGIN"). Qed.

Lemma main_option_step_cases s oa :
  (main.is_separator oa = true ∧
   main.option_step s oa = main.set_separator (main.separator_of oa) s) ∨
  (main.is_separator oa = false ∧ (oa.1 = "-h" ∨ oa.1 = "-v") ∧
   ∃ exit, main.option_step s oa = inl exit ∧
           exit ≠ main.Usage "Only one of -c, -S and -s may be specified" 1) ∨
  (main.is_separator oa = false ∧ oa.1 ≠ "-h" ∧ oa.1 ≠ "-v" ∧
   ∃ s', main.option_step s oa = inr s' ∧
         main.separator s' = main.separator s).
Proof.
  destruct oa as [opt arg]. unfold main.option_step, main.separator_of.
  simpl.
  destruct (decide (opt = "-h")) as [->|Hh].
  { right; left. split_and!; [done|by left|]. by eexists. }
  destruct (decide (opt = "-v")) as [->|Hv].
  { right; left. split_and!; [done|by right|]. by eexists. }
  destruct (decide (opt = "-V")) as [->|HV].
  { right; right. split_and!; [done..|]. by eexists. }
  destruct (decide (opt = "-i")) as [->|Hi].
  { right; right. split_and!; [done..|]. by eexists. }
  destruct (decide (opt = "-c")) as [->|Hc]; [by left|].
  destruct (decide (opt = "-S")) as [->|HS]; [by left|].
  destruct (decide (opt = "-s")) as [->|Hs]; [by left|].
  assert (main.is_separator (opt, arg) = false) as Hsep.
  { apply bool_decide_eq_false. simpl.
    rewrite !elem_of_cons, elem_of_nil. by intros [?|[?|[?|[]]]]. }
  right; right. split_and!; [done..|].
  destruct (decide (opt = "-d")) as [->|Hd]; [by eexists|].
  destruct (decide (opt = "-u")) as [->|Hu]; by eexists.
Qed.

Lemma main_options_separator_kept opts s s' sep :
  main.separator s = Some sep →
  main.options opts s = inr s' →
  filter main.is_separator opts = [] ∧ main.separator s' = Some sep.
Proof.
  revert s. induction opts as [|oa opts IH]; intros s Hsep; simpl.
  { by intros [= <-]. }
  destruct (main_option_step_cases s oa)
    as [[Hoa ->]|[(_ & _ & exit & -> & _)|(Hoa & _ & _ & s1 & -> & Hs1)]];
    [|done|].
  - unfold main.set_separator. by rewrite Hsep.
  - intros Hrun. rewrite filter_cons_False by (rewrite Hoa; by intros []).
    apply (IH s1); [congruence|done].
Qed.

(** X24.  When [main] gets past its options, at most one of them was
    [-c], [-S] or [-s], and the separator is the one that this option
    chooses, or none. *)
Theorem main_one_separator (env : gmap string string)
    (opts : list (string * string)) (s : main.Settings) :
  main.main env opts = inr s →
  length (filter main.is_separator opts) ≤ 1 ∧
  main.separator s
    = main.separator_of <$> head (filter main.is_separator opts).
Proof.
  unfold main.main. pose proof (main_environ_separator env) as Hnone.
  revert Hnone. generalize (main.environ env) as s0.
  induction opts as [|oa opts IH]; intros s0 Hnone; simpl.
  { intros [= <-]. split; [lia|done]. }
  destruct (main_option_step_cases s0 oa)
    as [[Hoa ->]|[(_ & _ & exit & -> & _)|(Hoa & _ & _ & s1 & -> & Hs1)]];
    [|done|].
  - unfold main.set_separator. rewrite Hnone. intros Hrun.
    apply main_options_separator_kept with (sep := main.separator_of oa)
      in Hrun as [Hfilter Hsep]; [|done].
    rewrite filter_cons_True by (by rewrite Hoa). rewrite Hfilter.
    split; [simpl; lia|done].
  - intros Hrun. rewrite filter_cons_False by (rewrite Hoa; by intros []).
    apply (IH s1); [congruence|done].
Qed.

Lemma main_one_separator_witness :
  length (filter main.is_separator [("-i", "home"); ("-S", ";"); ("-d", "")])
    ≤ 1 ∧
  main.separator
    {| main.tracker_home := "home"; main.name := "admin"; main.password := "";
       main.separator := Some ";"; main.print_designator := 1;
       main.verbose := 0 |}
  = main.separator_of
      <$> head (filter main.is_separator
                  [("-i", "home"); ("-S", ";"); ("-d", "")]).
Proof.
  apply (main_one_separator ∅ [("-i", "home"); ("-S", ";"); ("-d", "")]).
  reflexivity.
Defined.

Lemma main_options_second_separator pre oa post s sep :
  main.separator s = Some sep →
  Forall (λ o, o.1 ≠ "-h" ∧ o.1 ≠ "-v") pre →
  main.is_separator oa = true →
  main.options (pre ++ oa :: post) s
  = inl (main.Usage "Only one of -c, -S and -s may be specified" 1).
Proof.
  intros Hsep Hpre Hoa. revert s Hsep.
  induction Hpre as [|o pre [Hh Hv] _ IH]; intros s Hsep; simpl.
  - destruct (main_option_step_cases s oa)
      as [[_ ->]|[(Hoa' & _)|(Hoa' & _)]]; [|congruence..].
    unfold main.set_separator. by rewrite Hsep.
  - destruct (main_option_step_cases s o)
      as [[_ ->]|[(_ & [|] & _)|(_ & _ & _ & s1 & -> & Hs1)]]; [|done..|].
    + unfold main.set_separator. by rewrite Hsep.
    + apply IH. congruence.
Qed.

(** X25.  A second option among [-c], [-S] and [-s] ends [main] with
    the usage message and the return code 1, unless [-h] or [-v] came
    before it: the settings made so far are of no use, and no command
    is run. *)
Theorem main_second_separator_refused (env : gmap string string)
    (pre post : list (string * string)) (oa : string * string) :
  Forall (λ o, o.1 ≠ "-h" ∧ o.1 ≠ "-v") pre →
  Exists (λ o, main.is_separator o = true) pre →
  main.is_separator oa = true →
  main.main env (pre ++ oa :: post)
  = inl (main.Usage "Only one of -c, -S and -s may be specified" 1).
Proof.
  intros Hpre Hfirst Hoa. unfold main.main.
  pose proof (main_environ_separator env) as Hnone.
  revert Hnone. generalize (main.environ env) as s0.
  induction Hpre as [|o pre [Hh Hv] Hpre IH]; intros s0 Hnone.
  { by apply Exists_nil in Hfirst. }
  simpl.
  destruct (main_option_step_cases s0 o)
    as [[Ho ->]|[(_ & [|] & _)|(Ho & _ & _ & s1 & -> & Hs1)]]; [|done..|].
  - unfold main.set_separator. rewrite Hnone.
    by eapply main_options_second_separator.
  - apply Exists_cons in Hfirst as [|Hfirst]; [congruence|].
    apply IH; [done|congruence].
Qed.

Lemma main_second_separator_refused_witness :
  main.main ∅ ([("-c", ""); ("-V", "")] ++ ("-s", "") :: [("-h", "")])
  = inl (main.Usage "Only one of -c, -S and -s may be specified" 1).
Proof.
  apply (main_second_separator_refused ∅ [("-c", ""); ("-V", "")]
           [("-h", "")] ("-s", "")).
  - repeat constructor; discriminate.
  - by apply Exists_cons_hd.
  - reflexivity.
Defined.

(** ** AdminTool.do_reindex *)

Lemma is_digit_not_letter c : is_digit c = true → is_letter c = false.
Proof.
  unfold is_digit, is_letter. cbv zeta. intros Hd.
  apply bool_decide_eq_true in Hd. apply bool_decide_eq_false. lia.
Qed.

Lemma span_app p a b :
  all_chars p a = true →
  match b with "" => True | String c _ => p c = false end →
  span p (a ++ b)%string = (a, b).
Proof.
  intros Ha Hb. induction a as [|c a IH].
  - rewrite string_app_nil. destruct b as [|c b]; [done|]. simpl. by rewrite Hb.
  - simpl in Ha. apply andb_true_iff in Ha as [Hc Ha].
    rewrite string_app_cons. simpl. by rewrite Hc, (IH Ha).
Qed.

Lemma designator_re_match_prefix letters digits rest :
  letters ≠ "" → digits ≠ "" →
  all_chars is_letter letters = true → all_chars is_digit digits = true →
  no_digit_first rest →
  designator_re_match (letters ++ digits ++ rest)%string
  = Some (letters, digits).
Proof.
  intros Hl Hd Hletters Hdigits Hrest. unfold designator_re_match.
  rewrite (span_app is_letter letters (digits ++ rest)%string Hletters).
  - rewrite (span_app is_digit digits rest Hdigits); [|by destruct rest].
    rewrite decide_False; [done|]. by intros [|].
  - destruct digits as [|c digits]; [done|]. rewrite string_app_cons.
    simpl in Hdigits. apply andb_true_iff in Hdigits as [Hc _].
    by apply is_digit_not_letter.
Qed.

(** X26.  An argument that starts with letters and then digits is read
    as a designator whatever follows the digits: the class is the
    letters, the item the digits, and the rest of the argument is
    ignored. *)
Theorem do_reindex_designator_prefix {Value : Type} (self : AdminTool Value)
    (index : string → string → result unit) (letters digits rest : string)
    (cl : Class Value) (args : list string) (done : list Reindexed) :
  letters ≠ "" → digits ≠ "" →
  all_chars is_letter letters = true → all_chars is_digit digits = true →
  no_digit_first rest →
  getclass (classes self) letters = Some cl →
  index letters digits = Return tt →
  do_reindex_loop self index ((letters ++ digits ++ rest)%string :: args) done
  = do_reindex_loop self index args (done ++ [IndexNode letters digits]).
Proof.
  intros Hl Hd Hletters Hdigits Hrest Hcl Hindex. simpl.
  rewrite (designator_re_match_prefix letters digits rest) by done.
  unfold get_class. by rewrite Hcl, Hindex.
Qed.

Lemma do_reindex_designator_prefix_witness :
  do_reindex_loop Examples.import_tool (λ _ _, Return tt)
    (("issue" ++ "12" ++ "-old")%string :: ["status"]) []
  = do_reindex_loop Examples.import_tool (λ _ _, Return tt) ["status"]
      ([] ++ [IndexNode "issue" "12"]).
Proof.
  apply (do_reindex_designator_prefix Examples.import_tool (λ _ _, Return tt)
           "issue" "12" "-old" Examples.issue ["status"] []);
    [discriminate|discriminate|reflexivity|reflexivity|reflexivity
    |reflexivity|reflexivity].
Defined.

Lemma do_reindex_loop_asked {Value : Type} (self : AdminTool Value)
    (index : string → string → result unit) (all args : list string)
    (done : list Reindexed) (r : Reindexed) :
  all ≠ [] →
  (∀ arg, arg ∈ args → arg ∈ all) →
  r ∈ (do_reindex_loop self index args done).1 →
  r ∈ done ∨ reindex_asked self index all r.
Proof.
  intros Hall. revert done.
  induction args as [|arg args IH]; intros done Hsub; simpl; [by left|].
  assert (arg ∈ all) as Harg by apply Hsub, list_elem_of_here.
  assert (∀ a, a ∈ args → a ∈ all) as Hsub'
    by (intros a Ha; by apply Hsub, list_elem_of_further).
  destruct (designator_re_match arg) as [[classname nodeid]|] eqn:Hmatch.
  - unfold get_class.
    destruct (getclass (classes self) classname) as [cl|] eqn:Hcl; [|by left].
    destruct (index classname nodeid) as [e|[]] eqn:Hindex.
    { destruct e; by left. }
    intros Hr. destruct (IH _ Hsub' Hr) as [Hin|]; [|by right].
    apply elem_of_app in Hin as [|Hin]; [by left|].
    apply list_elem_of_singleton in Hin as ->. right. simpl.
    split_and!; [done..|]. by exists arg.
  - unfold get_class.
    destruct (getclass (classes self) arg) as [cl|] eqn:Hcl; [|by left].
    intros Hr. destruct (IH _ Hsub' Hr) as [Hin|]; [|by right].
    apply elem_of_app in Hin as [|Hin]; [by left|].
    apply list_elem_of_singleton in Hin as ->. right. simpl. done.
Qed.

(** X27.  [do_reindex] reindexes nothing that was not asked for: every
    call it makes, also when it ends with an error, is for the item of
    a designator among the arguments whose class is known and that the
    class has, or for a known class that is an argument and does not
    read as a designator, and the whole tracker is reindexed only when
    there is no argument. *)
Theorem do_reindex_only_asked {Value : Type} (self : AdminTool Value)
    (index : string → string → result unit) (args : list string)
    (r : Reindexed) :
  r ∈ (do_reindex self index args).1 →
  reindex_asked self index args r.
Proof.
  unfold do_reindex. destruct args as [|arg args].
  - simpl. intros Hr. by apply list_elem_of_singleton in Hr as ->.
  - intros Hr.
    destruct (do_reindex_loop_asked self index (arg :: args) (arg :: args)
                [] r) as [Hin|]; [done|done|done| |done].
    by apply elem_of_nil in Hin.
Qed.

Lemma do_reindex_only_asked_witness :
  reindex_asked Examples.import_tool
    (λ _ nodeid, if decide (nodeid = "1") then Return tt else Raise IndexError)
    ["issue1"; "status"; "issue2"; "issue"] (ReindexClass "status").
Proof.
  apply (do_reindex_only_asked Examples.import_tool
           (λ _ nodeid,
              if decide (nodeid = "1") then Return tt else Raise IndexError)
           ["issue1"; "status"; "issue2"; "issue"] (ReindexClass "status")).
  apply list_elem_of_further, list_elem_of_here.
Defined.
